(** * facturascr: the financial aggregation and projection engine

    A shallow embedding of the pure functions of
    [src/lib/accounting-service.ts] (record normaliser, monthly aggregator,
    baseline, metrics, seasonality, projector) and of [mapExpenseRow] from the
    expenses hook, with the properties the specification states about them;
    then of their callers: the monthly statistics of the dashboard
    ([app/page.tsx]), the expenses by category of the reports
    ([app/reportes/page.tsx]), the summaries of [lib/ai-context.ts] and the
    totals, the baseline and the projection of the AI route.

    Numbers.  A JavaScript [number] that the code receives is modelled by an
    exact rational ([Qc], canonical fractions, so that [=] is the equality of
    values).  Every division of the embedded functions is guarded by a test on
    its divisor, so no NaN or infinity arises from finite inputs; the only
    infinity is the literal [Infinity] that [calculateFinancialMetrics] stores,
    and [Number(...)] of a text can be NaN.  These are values of [number].
    Binary rounding of IEEE doubles is not modelled.

    Host.  What the code asks of its JavaScript host (the clock, [Date]
    parsing and printing, [Number] on a text, [localeCompare]) is gathered in
    the record [Host]; every function that uses one of them takes the host as
    an argument.  [refHost] is a host in the UTC time zone with a fixed clock,
    for the examples. *)

From Stdlib Require Import QArith Qcanon Qround ZArith Ascii String Lqa Sorted.
From stdpp Require Import base numbers list strings pretty.

Local Open Scope Qc_scope.

(** ** JavaScript values and built-ins *)

Module JS.

(** A decimal literal of the source, as a rational. *)
Definition lit (x : Q) : Qc := Q2Qc x.

(** [number] values that are not finite appear in two places only. *)
Inductive number : Type :=
  | Fin (x : Qc)
  | Infinity
  | NegInfinity
  | NaN.

(** Equality of [Map] keys (SameValueZero). *)
Global Instance number_eq_dec : EqDecision number.
Proof. solve_decision. Defined.

(** A loop counter as a number. *)
Definition num (i : Z) : number := Fin (Qc_of_Z i).

(** [Math.round]: the nearest integer, ties towards +infinity. *)
Definition Math_round (x : Qc) : Qc := Qc_of_Z (Qfloor (x + lit 0.5)%Q).

Definition Math_max (x y : Qc) : Qc := if decide (x < y) then y else x.

(** [Math.pow(x, i)] for a loop counter [i]. *)
Definition Math_pow (x : Qc) (i : nat) : Qc := x ^ i.

(** [xs.length] as a number. *)
Definition length_of {A} (xs : list A) : Qc := Qc_of_Z (Z.of_nat (length xs)).

(** [xs.slice(-n)]: the last [n] elements, all of them when there are fewer;
    [-0] is [0], and [xs.slice(0)] is all of [xs]. *)
Definition slice_last {A} (n : nat) (xs : list A) : list A :=
  if decide (n = 0%nat) then xs else drop (length xs - n) xs.

(** [xs.reduce((a, b) => a + f(b), 0)]. *)
Definition sum_by {A} (f : A → Qc) (xs : list A) : Qc :=
  foldl (λ acc x, acc + f x) 0 xs.

(** [s.slice(0, n)]. *)
Definition slice0 (n : nat) (s : string) : string := String.substring 0 n s.

(** [s.split('-')]. *)
Fixpoint split_dash (s : string) : list string :=
  match s with
  | EmptyString => [EmptyString]
  | String c s' =>
      if decide (c = "-"%char) then EmptyString :: split_dash s'
      else match split_dash s' with
           | h :: t => String c h :: t
           | [] => [String c EmptyString]
           end
  end.

(** [String(n).padStart(2, '0')] for an integer [n]. *)
Definition pad2 (n : Z) : string :=
  let s := pretty n in
  if decide (String.length s < 2)%nat then String "0"%char s else s.

Definition is_digit (c : ascii) : bool :=
  bool_decide (is_Some (Ascii.is_nat c)).

Fixpoint all_digits (s : string) : bool :=
  match s with
  | EmptyString => true
  | String c s' => is_digit c && all_digits s'
  end.

(** [/^\d{4}-\d{2}-\d{2}$/.test(s)]. *)
Definition is_date_input (s : string) : bool :=
  bool_decide (String.length s = 10%nat)
  && all_digits (String.substring 0 4 s)
  && bool_decide (String.substring 4 1 s = "-")
  && all_digits (String.substring 5 2 s)
  && bool_decide (String.substring 7 1 s = "-")
  && all_digits (String.substring 8 2 s).

(** A [Map] (and an object used as one): keys in insertion order; [set] on a
    key that is present replaces its value in place, a new key goes last. *)
Module Map.
Section map.
Context {K V : Type} `{EqDecision K}.

Fixpoint get (k : K) (m : list (K * V)) : option V :=
  match m with
  | [] => None
  | (k', v) :: m' => if decide (k = k') then Some v else get k m'
  end.

Fixpoint set (k : K) (v : V) (m : list (K * V)) : list (K * V) :=
  match m with
  | [] => [(k, v)]
  | (k', v') :: m' =>
      if decide (k = k') then (k, v) :: m' else (k', v') :: set k v m'
  end.

Definition keys (m : list (K * V)) : list K := m.*1.
Definition values (m : list (K * V)) : list V := m.*2.
End map.
End Map.

(** [xs.sort(cmp)]: the sort is stable, so with a comparator that orders its
    arguments consistently the result is that of a stable insertion sort. *)
Section sort.
Context {A : Type} (cmp : A → A → comparison).

Fixpoint insert_sorted (x : A) (xs : list A) : list A :=
  match xs with
  | [] => [x]
  | y :: ys =>
      match cmp x y with
      | Gt => y :: insert_sorted x ys
      | _ => x :: y :: ys
      end
  end.

Definition sort (xs : list A) : list A := foldr insert_sorted [] xs.
End sort.

(** What the code asks of its host. *)
Record Host := {
  (** the time value of [new Date()], in milliseconds since the epoch *)
  now : Z;
  (** the time value of [new Date(text)]; [None] is Invalid Date *)
  Date_parse : string → option Z;
  (** [d.toISOString()] of a valid date *)
  toISOString : Z → string;
  (** the time value after [d.setHours(0, 0, 0, 0)], local midnight *)
  startOfLocalDay : Z → Z;
  getUTCFullYear : Z → Z;
  getUTCMonth : Z → Z;
  getUTCDate : Z → Z;
  (** local calendar year and month (0 to 11) *)
  getFullYear : Z → Z;
  getMonth : Z → Z;
  (** [Number(text)] *)
  Number : string → number;
  (** the sign of [a.localeCompare(b)] *)
  localeCompare : string → string → comparison
}.

End JS.

Import JS.

(** ** accounting-types.ts *)

Inductive AccountingStatus := pendiente | pagado | vencido.
Inductive InvoiceStatus := Pagado | Pendiente | Vencido.

Definition ACCOUNTING_STATUS_TO_LABEL (s : AccountingStatus) : InvoiceStatus :=
  match s with
  | pendiente => Pendiente
  | pagado => Pagado
  | vencido => Vencido
  end.

Inductive PaymentMethod :=
  | transferencia | deposito | efectivo | tarjeta | cheque | yape_plin | pm_otros.

Inductive ExpenseDocumentType := factura | recibo | boleta.

Inductive ExpenseCategory :=
  | servicios | materiales | personal | marketing | administrativos | equipos | otros.

Global Instance AccountingStatus_eq_dec : EqDecision AccountingStatus.
Proof. solve_decision. Defined.
Global Instance InvoiceStatus_eq_dec : EqDecision InvoiceStatus.
Proof. solve_decision. Defined.
Global Instance PaymentMethod_eq_dec : EqDecision PaymentMethod.
Proof. solve_decision. Defined.

Record InvoiceRecord := {
  recordId : string;
  id : string;
  client : string;
  clientId : option string;
  ruc : string;
  description : string;
  issueDate : string;
  dueDate : string;
  amount : Qc;
  vat : Qc;
  total : Qc;
  paid : Qc;
  balance : Qc;
  status : InvoiceStatus;
  paymentMethod : option PaymentMethod;
  paymentReference : option string;
  paymentDate : option string;
  retentionIR : option Qc;
  itf : option Qc;
  category : option string
}.

Global Instance InvoiceRecord_eq_dec : EqDecision InvoiceRecord.
Proof. solve_decision. Defined.

(** The fields of a persisted row that [mapInvoiceRow] reads. *)
Record SupabaseInvoiceRow := {
  r_id : string;
  r_invoice_number : option string;
  r_client : option string;
  r_client_id : option string;
  r_ruc : option string;
  r_description : option string;
  r_issue_date : option string;
  r_due_date : option string;
  r_amount : option Qc;
  r_vat : option Qc;
  r_total : option Qc;
  r_paid : option Qc;
  r_payment_method : option PaymentMethod;
  r_payment_reference : option string;
  r_payment_date : option string;
  r_category : option string;
  r_status : option AccountingStatus;
  r_retention_ir : option Qc;
  r_itf : option Qc
}.

Record ExpenseRecord := {
  ex_id : string;
  ex_documentType : ExpenseDocumentType;
  ex_documentSeries : option string;
  ex_documentNumber : string;
  ex_issueDate : string;
  ex_dueDate : option string;
  ex_partnerId : option string;
  ex_providerName : string;
  ex_providerDocument : option string;
  ex_concept : string;
  ex_paymentMethod : option PaymentMethod;
  ex_operationNumber : option string;
  ex_paymentDate : option string;
  ex_baseAmount : Qc;
  ex_igvAmount : Qc;
  ex_irRetention : Qc;
  ex_otherTaxes : Qc;
  ex_totalAmount : Qc;
  ex_category : ExpenseCategory;
  ex_status : AccountingStatus;
  ex_paidAmount : Qc;
  ex_notes : option string
}.

Record SupabaseExpenseRow := {
  xr_id : string;
  xr_document_type : ExpenseDocumentType;
  xr_document_series : option string;
  xr_document_number : string;
  xr_issue_date : string;
  xr_due_date : option string;
  xr_partner_id : option string;
  xr_provider_name : string;
  xr_provider_document : option string;
  xr_concept : string;
  xr_payment_method : option PaymentMethod;
  xr_operation_number : option string;
  xr_payment_date : option string;
  xr_base_amount : Qc;
  xr_igv_amount : Qc;
  xr_ir_retention : Qc;
  xr_other_taxes : Qc;
  xr_total_amount : Qc;
  xr_category : ExpenseCategory;
  xr_status : AccountingStatus;
  xr_paid_amount : Qc;
  xr_notes : option string
}.

(** ** The expenses hook: [mapExpenseRow] *)

Definition mapExpenseRow (row : SupabaseExpenseRow) : ExpenseRecord := {|
  ex_id := xr_id row;
  ex_documentType := xr_document_type row;
  ex_documentSeries := xr_document_series row;
  ex_documentNumber := xr_document_number row;
  ex_issueDate := xr_issue_date row;
  ex_dueDate := xr_due_date row;
  ex_partnerId := xr_partner_id row;
  ex_providerName := xr_provider_name row;
  ex_providerDocument := xr_provider_document row;
  ex_concept := xr_concept row;
  ex_paymentMethod := xr_payment_method row;
  ex_operationNumber := xr_operation_number row;
  ex_paymentDate := xr_payment_date row;
  ex_baseAmount := xr_base_amount row;
  ex_igvAmount := xr_igv_amount row;
  ex_irRetention := xr_ir_retention row;
  ex_otherTaxes := xr_other_taxes row;
  ex_totalAmount := xr_total_amount row;
  ex_category := xr_category row;
  ex_status := xr_status row;
  ex_paidAmount :=
    if decide (xr_status row = pagado) then xr_total_amount row
    else xr_paid_amount row;
  ex_notes := xr_notes row
|}.

(** ** accounting-service.ts *)

(** [round]: two decimals. *)
Definition round (value : Qc) : Qc :=
  Math_round (value * Qc_of_Z 100) / Qc_of_Z 100.

Section dates.
Context (H : Host).

(** [None]: [toISOString] throws a RangeError on an Invalid Date. *)
Definition toDateInputValue (value : option string) : option string :=
  let source := default (toISOString H (now H)) value in
  match Date_parse H source with
  | Some t => Some (slice0 10 (toISOString H t))
  | None => None
  end.

(** The time value of the resulting date; [None] is Invalid Date. *)
Definition asLocalDate (value : string) : option Z :=
  if decide (value = EmptyString) then Some (now H)
  else if is_date_input value then Date_parse H (value +:+ "T00:00:00")
  else
    match Date_parse H value with
    | None => Some (now H)
    | Some parsed =>
        let year := getUTCFullYear H parsed in
        let month := pad2 (getUTCMonth H parsed + 1) in
        let day := pad2 (getUTCDate H parsed) in
        Date_parse H (pretty year +:+ "-" +:+ month +:+ "-" +:+ day +:+ "T00:00:00")
    end.

(** [due < today] of [withComputedStatus], both at local midnight; a
    comparison with an Invalid Date is false. *)
Definition dueBeforeToday (dueDate : string) : bool :=
  let today := startOfLocalDay H (now H) in
  match asLocalDate dueDate with
  | Some due => bool_decide (startOfLocalDay H due < today)%Z
  | None => false
  end.

Definition withComputedStatus
    (invoice : InvoiceRecord) (persistedStatus : option InvoiceStatus)
    : InvoiceRecord :=
  let balance := Math_max (round (total invoice - paid invoice)) 0 in
  let computedStatus :=
    if decide (balance ≤ 0) then Pagado
    else if dueBeforeToday (dueDate invoice) then Vencido
    else Pendiente in
  let status :=
    match persistedStatus with
    | Some persisted =>
        if decide (balance ≤ 0) then Pagado
        else if decide (persisted = Pagado ∧ 0 < balance) then computedStatus
        else persisted
    | None => computedStatus
    end in
  {| recordId := recordId invoice; id := id invoice; client := client invoice;
     clientId := clientId invoice; ruc := ruc invoice;
     description := description invoice; issueDate := issueDate invoice;
     dueDate := dueDate invoice; amount := amount invoice; vat := vat invoice;
     total := total invoice; paid := paid invoice;
     balance := balance;
     status := status;
     paymentMethod := paymentMethod invoice;
     paymentReference := paymentReference invoice;
     paymentDate := paymentDate invoice; retentionIR := retentionIR invoice;
     itf := itf invoice; category := category invoice |}.

(** [None]: one of the two dates of the row made [toDateInputValue] throw. *)
Definition mapInvoiceRow (row : SupabaseInvoiceRow) : option InvoiceRecord :=
  let amount := default 0 (r_amount row) in
  let vat := default 0 (r_vat row) in
  let total := default (round (amount * (1 + vat / Qc_of_Z 100))) (r_total row) in
  let paid := default 0 (r_paid row) in
  let persistedStatus := ACCOUNTING_STATUS_TO_LABEL <$> r_status row in
  issueDate ← toDateInputValue (r_issue_date row);
  dueDate ← toDateInputValue
               (match r_due_date row with Some d => Some d | None => r_issue_date row end);
  Some (withComputedStatus
    {| recordId := r_id row;
       id := default "SIN-CODIGO" (r_invoice_number row);
       client := default "Sin cliente" (r_client row);
       clientId := r_client_id row;
       ruc := default EmptyString (r_ruc row);
       description := default EmptyString (r_description row);
       issueDate := issueDate;
       dueDate := dueDate;
       amount := amount;
       vat := vat;
       total := total;
       paid := paid;
       balance := Math_max (total - paid) 0;
       status := default Pendiente persistedStatus;
       paymentMethod := r_payment_method row;
       paymentReference := r_payment_reference row;
       paymentDate := r_payment_date row;
       retentionIR := Some (default 0 (r_retention_ir row));
       itf := Some (default 0 (r_itf row));
       category := r_category row |}
    persistedStatus).
End dates.

Record MonthlyAggregate := {
  month : string;
  income : Qc;
  fixedExpenses : Qc;
  variableExpenses : Qc;
  totalExpenses : Qc
}.

(** The shapes [buildMonthlyAggregates] asks of its two arguments. *)
Record InvoiceLine := { i_issueDate : string; i_total : Qc }.
Record ExpenseLine := { e_issueDate : string; e_totalAmount : Qc; e_category : string }.

(** A value of the function's [monthlyMap]. *)
Record MonthEntry := { m_income : Qc; m_fixedExpenses : Qc; m_variableExpenses : Qc }.

Global Instance MonthEntry_eq_dec : EqDecision MonthEntry.
Proof. solve_decision. Defined.
Global Instance MonthlyAggregate_eq_dec : EqDecision MonthlyAggregate.
Proof. solve_decision. Defined.

Definition FIXED_COST_CATEGORIES : list string :=
  ["personal"; "administrativos"; "equipos"].

Definition toMonthKey (value : string) : string :=
  if decide (value = EmptyString) then "0000-00" else slice0 7 value.

Section aggregates.
Context (H : Host).

Definition localMonthKey (value : string) : string :=
  if decide (value = EmptyString) then "0000-00" else slice0 7 value.

Definition emptyEntry : MonthEntry :=
  {| m_income := 0; m_fixedExpenses := 0; m_variableExpenses := 0 |}.

Definition addInvoice (monthlyMap : list (string * MonthEntry)) (invoice : InvoiceLine)
    : list (string * MonthEntry) :=
  let monthKey := localMonthKey (i_issueDate invoice) in
  let entry := default emptyEntry (Map.get monthKey monthlyMap) in
  Map.set monthKey
    {| m_income := m_income entry + i_total invoice;
       m_fixedExpenses := m_fixedExpenses entry;
       m_variableExpenses := m_variableExpenses entry |}
    monthlyMap.

Definition addExpense (monthlyMap : list (string * MonthEntry)) (expense : ExpenseLine)
    : list (string * MonthEntry) :=
  let monthKey := localMonthKey (e_issueDate expense) in
  let entry := default emptyEntry (Map.get monthKey monthlyMap) in
  Map.set monthKey
    (if bool_decide (e_category expense ∈ FIXED_COST_CATEGORIES) then
       {| m_income := m_income entry;
          m_fixedExpenses := m_fixedExpenses entry + e_totalAmount expense;
          m_variableExpenses := m_variableExpenses entry |}
     else
       {| m_income := m_income entry;
          m_fixedExpenses := m_fixedExpenses entry;
          m_variableExpenses := m_variableExpenses entry + e_totalAmount expense |})
    monthlyMap.

(** The map after both [forEach] loops. *)
Definition monthlyMap (invoices : list InvoiceLine) (expenses : list ExpenseLine)
    : list (string * MonthEntry) :=
  foldl addExpense (foldl addInvoice [] invoices) expenses.

Definition toAggregate (e : string * MonthEntry) : MonthlyAggregate :=
  {| month := e.1;
     income := round (m_income e.2);
     fixedExpenses := round (m_fixedExpenses e.2);
     variableExpenses := round (m_variableExpenses e.2);
     totalExpenses := round (m_fixedExpenses e.2 + m_variableExpenses e.2) |}.

Definition buildMonthlyAggregates
    (invoices : list InvoiceLine) (expenses : list ExpenseLine)
    : list MonthlyAggregate :=
  toAggregate <$>
    sort (λ a b, localeCompare H a.1 b.1) (monthlyMap invoices expenses).
End aggregates.

Record ProjectionBaseline := {
  costosFijosReales : Qc;
  tasaCostoVariable : Qc;
  ingresosPromedioRecurrentes : Qc;
  saldoCajaActual : Qc
}.

Definition lookbackMonths : nat := 6.

Definition calculateProjectionBaseline
    (monthlyAggregates : list MonthlyAggregate) (currentCashBalance : Qc)
    : ProjectionBaseline :=
  let recentAggregates := slice_last lookbackMonths monthlyAggregates in
  if decide (length recentAggregates = 0%nat) then
    {| costosFijosReales := 0;
       tasaCostoVariable := 0;
       ingresosPromedioRecurrentes := 0;
       saldoCajaActual := currentCashBalance |}
  else
    let totalFixedExpenses := sum_by fixedExpenses recentAggregates in
    let totalVariableExpenses := sum_by variableExpenses recentAggregates in
    let totalIncome := sum_by income recentAggregates in
    {| costosFijosReales := round (totalFixedExpenses / length_of recentAggregates);
       tasaCostoVariable :=
         if decide (0 < totalIncome) then round (totalVariableExpenses / totalIncome)
         else 0;
       ingresosPromedioRecurrentes := round (totalIncome / length_of recentAggregates);
       saldoCajaActual := currentCashBalance |}.

Record FinancialMetrics := {
  puntoEquilibrio : number;
  runway : number
}.

Definition calculateFinancialMetrics (baseline : ProjectionBaseline) : FinancialMetrics :=
  let contributionMarginRatio := 1 - tasaCostoVariable baseline in
  let puntoEquilibrio :=
    if decide (0 < contributionMarginRatio) then
      Fin (round (costosFijosReales baseline / contributionMarginRatio))
    else if decide (0 < costosFijosReales baseline) then Infinity
    else Fin 0 in
  let netCashBurn := costosFijosReales baseline - ingresosPromedioRecurrentes baseline in
  let runway :=
    if decide (0 < netCashBurn) then Fin (round (saldoCajaActual baseline / netCashBurn))
    else if decide (netCashBurn ≤ 0) then Infinity
    else Infinity in
  {| puntoEquilibrio := puntoEquilibrio; runway := runway |}.

(** The loop [for (let i = 1; i <= 12; i++)]. *)
Definition calendarMonths : list Z := [1; 2; 3; 4; 5; 6; 7; 8; 9; 10; 11; 12]%Z.

Section seasonality.
Context (H : Host).

(** [const [year, month] = agg.month.split('-').map(Number)], then
    [month ?? 1]. *)
Definition calendarMonth (monthKey : string) : number :=
  match Number H <$> split_dash monthKey with
  | _ :: month :: _ => month
  | _ => num 1
  end.

Definition monthlyByCalendar (monthlyAggregates : list MonthlyAggregate)
    : list (number * list Qc) :=
  foldl
    (λ m agg,
       let key := calendarMonth (month agg) in
       let values := default [] (Map.get key m) in
       Map.set key (values ++ [income agg]) m)
    (foldl (λ m i, Map.set (num i) [] m) [] calendarMonths)
    monthlyAggregates.

Definition monthAverages (monthlyAggregates : list MonthlyAggregate)
    : list (Z * Qc) :=
  foldl
    (λ m i,
       let values := default [] (Map.get (num i) (monthlyByCalendar monthlyAggregates)) in
       if decide (0 < length values)%nat then
         Map.set i (sum_by (λ b, b) values / length_of values) m
       else Map.set i 0 m)
    [] calendarMonths.

Definition globalAverage (monthlyAggregates : list MonthlyAggregate) : Qc :=
  let allIncomes := Map.values (monthAverages monthlyAggregates) in
  if decide (0 < length allIncomes)%nat then
    sum_by (λ b, b) allIncomes / length_of allIncomes
  else 0.

(** The indices before the smoothing loop. *)
Definition indices (monthlyAggregates : list MonthlyAggregate) : list (Z * Qc) :=
  foldl
    (λ ind i,
       let monthAvg := default 0 (Map.get i (monthAverages monthlyAggregates)) in
       Map.set i
         (if decide (0 < globalAverage monthlyAggregates) then
            round (monthAvg / globalAverage monthlyAggregates)
          else 1)
         ind)
    [] calendarMonths.

(** One round of the smoothing loop. *)
Definition smooth (ind : list (Z * Qc)) (i : Z) : list (Z * Qc) :=
  match Map.get i ind with
  | Some idx =>
      if decide (lit 2.5 < idx) then Map.set i (lit 2.0) ind
      else if decide (idx < lit 0.3) then Map.set i (lit 0.5) ind
      else ind
  | None => ind
  end.

Definition analyzeSeasonality (monthlyAggregates : list MonthlyAggregate)
    : list (Z * Qc) :=
  if decide (length monthlyAggregates = 0%nat) then (λ i, (i, 1)) <$> calendarMonths
  else foldl smooth (indices monthlyAggregates) calendarMonths.

Record ProjectedIncome := { p_month : string; projectedIncome : Qc }.

Global Instance ProjectedIncome_eq_dec : EqDecision ProjectedIncome.
Proof. solve_decision. Defined.

(** [new Date(currentYear, currentMonth - 1 + i, 1)] read back with
    [getFullYear] and [getMonth() + 1]: the constructor carries the months
    beyond December over into the year.  (Years 0 to 99, which it reads as
    1900 + year, and instants outside the range of [Date] are not
    modelled.) *)
Definition futureYear (i : Z) : Z :=
  getFullYear H (now H) + (getMonth H (now H) + 1 - 1 + i) `div` 12.
Definition futureMonth (i : Z) : Z :=
  (getMonth H (now H) + 1 - 1 + i) `mod` 12 + 1.

(** [projectionMonths] is a count of months, an integer; the loop body runs
    for [i] from 1 to that count. *)
Definition projectIncomeWithSeasonality
    (monthlyAggregates : list MonthlyAggregate) (baselineIncome : Qc)
    (projectionMonths : Z) (growthFactorMonthly : Qc) : list ProjectedIncome :=
  let seasonalityIndices := analyzeSeasonality monthlyAggregates in
  (λ i : nat,
     let monthKey :=
       pretty (futureYear (Z.of_nat i)) +:+ "-" +:+ pad2 (futureMonth (Z.of_nat i)) in
     let seasonalityIndex :=
       default 1 (Map.get (futureMonth (Z.of_nat i)) seasonalityIndices) in
     let growthFactor := Math_pow growthFactorMonthly i in
     {| p_month := monthKey;
        projectedIncome := round (baselineIncome * seasonalityIndex * growthFactor) |})
  <$> seq 1 (Z.to_nat projectionMonths).
End seasonality.

(** ** accounting-service.ts: the summary of a list of invoices *)

(** The accumulator of [summarizeInvoices]; its keys are [facturado],
    [pagado], [pendiente] and [vencido]. *)
Record InvoiceTotals := {
  s_facturado : Qc;
  s_pagado : Qc;
  s_pendiente : Qc;
  s_vencido : Qc
}.

Definition summarizeInvoices (list : list InvoiceRecord) : InvoiceTotals :=
  foldl
    (λ acc invoice,
       {| s_facturado := s_facturado acc + total invoice;
          s_pagado := s_pagado acc + paid invoice;
          s_pendiente := s_pendiente acc + balance invoice;
          s_vencido :=
            if decide (status invoice = Vencido) then s_vencido acc + balance invoice
            else s_vencido acc |})
    {| s_facturado := 0; s_pagado := 0; s_pendiente := 0; s_vencido := 0 |}
    list.

(** ** reportes/page.tsx: the expenses by category *)

Module Reportes.

Global Instance ExpenseCategory_eq_dec : EqDecision ExpenseCategory.
Proof. solve_decision. Defined.

Record CategoryTotal := { c_category : ExpenseCategory; c_total : Qc }.

Global Instance CategoryTotal_eq_dec : EqDecision CategoryTotal.
Proof. solve_decision. Defined.

(** The [Map] after the [forEach].  The type of [expense.category] has no
    missing value, so the [?? 'otros'] of the source never applies. *)
Definition categoryMap (expenses : list ExpenseRecord) : list (ExpenseCategory * Qc) :=
  foldl
    (λ map expense,
       let key := ex_category expense in
       Map.set key (default 0 (Map.get key map) + ex_totalAmount expense) map)
    [] expenses.

(** The comparator [(a, b) => b.total - a.total], as the sign of its
    result. *)
Definition byTotalDescending (a b : CategoryTotal) : comparison :=
  Qccompare (c_total b) (c_total a).

Definition buildExpensesByCategory (expenses : list ExpenseRecord)
    : list CategoryTotal :=
  sort byTotalDescending
    ((λ e, {| c_category := e.1; c_total := e.2 |}) <$> categoryMap expenses).

End Reportes.

(** ** page.tsx: the monthly statistics of the dashboard *)

Module Dashboard.

(** [Math.abs]. *)
Definition Math_abs (x : Qc) : Qc := if decide (x < 0) then - x else x.

(** The value of a month in the function's [Map]. *)
Record Flow := { f_income : Qc; f_expense : Qc }.

(** A [MonthlyPoint] without its two labels, which are display texts of
    [Intl.DateTimeFormat]. *)
Record MonthlyPoint := {
  mp_key : string;
  mp_income : Qc;
  mp_expense : Qc;
  mp_net : Qc;
  mp_cashflow : Qc
}.

Global Instance Flow_eq_dec : EqDecision Flow.
Proof. solve_decision. Defined.
Global Instance MonthlyPoint_eq_dec : EqDecision MonthlyPoint.
Proof. solve_decision. Defined.

(** [forEach] with a callback that may throw: the first exception ends the
    loop. *)
Fixpoint forEach {S X} (f : S → X → option S) (s : S) (xs : list X) : option S :=
  match xs with
  | [] => Some s
  | x :: xs' => s' ← f s x; forEach f s' xs'
  end.

Section dashboard.
Context (H : Host).

(** [asLocalDate(value).toISOString().slice(0, 7)]; [None]: [toISOString]
    throws a RangeError on an Invalid Date. *)
Definition formatMonthKey (value : string) : option string :=
  t ← asLocalDate H value; Some (slice0 7 (toISOString H t)).

Definition noFlow : Flow := {| f_income := 0; f_expense := 0 |}.

Definition addIncome (map : list (string * Flow)) (invoice : InvoiceLine)
    : option (list (string * Flow)) :=
  key ← formatMonthKey (i_issueDate invoice);
  let stored := default noFlow (Map.get key map) in
  Some (Map.set key
          {| f_income := f_income stored + i_total invoice;
             f_expense := f_expense stored |}
          map).

(** The expenses are read for their issue date and their total amount. *)
Definition addOutgo (map : list (string * Flow)) (expense : ExpenseLine)
    : option (list (string * Flow)) :=
  key ← formatMonthKey (e_issueDate expense);
  let stored := default noFlow (Map.get key map) in
  Some (Map.set key
          {| f_income := f_income stored;
             f_expense := f_expense stored + e_totalAmount expense |}
          map).

(** The callback of the final [map], with the variable [cashflow] that it
    updates from one entry to the next. *)
Fixpoint points (cashflow : Qc) (entries : list (string * Flow)) : list MonthlyPoint :=
  match entries with
  | [] => []
  | (key, value) :: rest =>
      let net := f_income value - f_expense value in
      let cashflow := cashflow + net in
      {| mp_key := key; mp_income := f_income value; mp_expense := f_expense value;
         mp_net := net; mp_cashflow := cashflow |}
      :: points cashflow rest
  end.

Definition buildMonthlyStats
    (invoices : list InvoiceLine) (expenses : list ExpenseLine)
    : option (list MonthlyPoint) :=
  map ← forEach addIncome [] invoices;
  map ← forEach addOutgo map expenses;
  Some (points 0 (sort (λ a b, localeCompare H a.1 b.1) map)).
End dashboard.

Definition averageNet (stats : list MonthlyPoint) : Qc :=
  if decide (length stats = 0%nat) then 0
  else sum_by mp_net stats / length_of stats.

(** [None] is [null]; an argument that is [undefined] or [null] is [None]. *)
Definition percentChange (current previous : option Qc) : option Qc :=
  match current, previous with
  | Some current, Some previous =>
      if decide (Math_abs previous < lit 0.001) then None
      else Some ((current - previous) / previous * Qc_of_Z 100)
  | _, _ => None
  end.

End Dashboard.

(** ** ai-context.ts *)

Module AIContext.

Record AIInvoiceSummary := {
  ai_id : string;
  ai_client : string;
  ai_issueDate : string;
  ai_dueDate : string;
  ai_total : Qc;
  ai_paid : Qc;
  ai_balance : Qc;
  ai_status : InvoiceStatus;
  ai_category : option string;
  ai_description : string
}.

Record AIExpenseSummary := {
  ax_id : string;
  ax_providerName : string;
  ax_concept : string;
  ax_issueDate : string;
  ax_dueDate : option string;
  ax_category : ExpenseCategory;
  ax_totalAmount : Qc;
  ax_paidAmount : Qc;
  ax_status : AccountingStatus
}.

Definition mapInvoicesForAI (list : list InvoiceRecord)
    : Datatypes.list AIInvoiceSummary :=
  (λ invoice,
     {| ai_id := id invoice;
        ai_client := client invoice;
        ai_issueDate := issueDate invoice;
        ai_dueDate := dueDate invoice;
        ai_total := total invoice;
        ai_paid := paid invoice;
        ai_balance := balance invoice;
        ai_status := status invoice;
        ai_category := category invoice;
        ai_description := description invoice |}) <$> list.

Definition mapExpensesForAI (list : list ExpenseRecord)
    : Datatypes.list AIExpenseSummary :=
  (λ expense,
     {| ax_id := ex_id expense;
        ax_providerName := ex_providerName expense;
        ax_concept := ex_concept expense;
        ax_issueDate := ex_issueDate expense;
        ax_dueDate := ex_dueDate expense;
        ax_category := ex_category expense;
        ax_totalAmount := ex_totalAmount expense;
        ax_paidAmount := ex_paidAmount expense;
        ax_status := ex_status expense |}) <$> list.

End AIContext.

(** ** The AI route: totals, baseline, change between two months *)

Module Route.
Import AIContext.

(** The [totals] of [buildFinancialSnapshot]. *)
Record Totals := {
  t_facturado : Qc;
  t_cobrado : Qc;
  t_pendiente : Qc;
  t_vencido : Qc;
  t_gastos : Qc;
  t_utilidad : Qc
}.

(** What the two [forEach] loops of [buildFinancialSnapshot] and the
    assignment after them make of [totals]; the other objects that the loops
    fill do not enter it. *)
Definition totals (invoices : list AIInvoiceSummary) (expenses : list AIExpenseSummary)
    : Totals :=
  let afterInvoices :=
    foldl
      (λ totals invoice,
         {| t_facturado := t_facturado totals + ai_total invoice;
            t_cobrado := t_cobrado totals + ai_paid invoice;
            t_pendiente := t_pendiente totals + Math_max (ai_balance invoice) 0;
            t_vencido :=
              if decide (ai_status invoice = Vencido) then
                t_vencido totals + Math_max (ai_balance invoice) 0
              else t_vencido totals;
            t_gastos := t_gastos totals;
            t_utilidad := t_utilidad totals |})
      {| t_facturado := 0; t_cobrado := 0; t_pendiente := 0; t_vencido := 0;
         t_gastos := 0; t_utilidad := 0 |}
      invoices in
  let afterExpenses :=
    foldl
      (λ totals expense,
         {| t_facturado := t_facturado totals;
            t_cobrado := t_cobrado totals;
            t_pendiente := t_pendiente totals;
            t_vencido := t_vencido totals;
            t_gastos := t_gastos totals + ax_totalAmount expense;
            t_utilidad := t_utilidad totals |})
      afterInvoices expenses in
  {| t_facturado := t_facturado afterExpenses;
     t_cobrado := t_cobrado afterExpenses;
     t_pendiente := t_pendiente afterExpenses;
     t_vencido := t_vencido afterExpenses;
     t_gastos := t_gastos afterExpenses;
     t_utilidad := t_cobrado afterExpenses - t_gastos afterExpenses |}.

(** A category as the text that it is in the source. *)
Definition categoryName (c : ExpenseCategory) : string :=
  match c with
  | servicios => "servicios"
  | materiales => "materiales"
  | personal => "personal"
  | marketing => "marketing"
  | administrativos => "administrativos"
  | equipos => "equipos"
  | otros => "otros"
  end.

(** The fields of the summaries that [buildMonthlyAggregates] reads. *)
Definition invoiceLine (invoice : AIInvoiceSummary) : InvoiceLine :=
  {| i_issueDate := ai_issueDate invoice; i_total := ai_total invoice |}.

Definition expenseLine (expense : AIExpenseSummary) : ExpenseLine :=
  {| e_issueDate := ax_issueDate expense; e_totalAmount := ax_totalAmount expense;
     e_category := categoryName (ax_category expense) |}.

(** The baseline that the handler [POST] attaches to the snapshot. *)
Definition projectionBaseline (H : Host)
    (invoices : list AIInvoiceSummary) (expenses : list AIExpenseSummary)
    : ProjectionBaseline :=
  let snapshotTotals := totals invoices expenses in
  let monthlyAggregates :=
    buildMonthlyAggregates H (invoiceLine <$> invoices) (expenseLine <$> expenses) in
  calculateProjectionBaseline monthlyAggregates (t_cobrado snapshotTotals).

(** The metrics that it attaches. *)
Definition financialMetrics (H : Host)
    (invoices : list AIInvoiceSummary) (expenses : list AIExpenseSummary)
    : FinancialMetrics :=
  calculateFinancialMetrics (projectionBaseline H invoices expenses).

Record PnlEntry := {
  mes : string;
  ventas_devengado : Qc;
  costos_variables : Qc;
  costos_fijos : Qc;
  utilidad_operativa : Qc
}.

Record CashflowEntry := {
  cf_mes : string;
  ingresos_percibidos : Qc;
  egresos_totales : Qc;
  flujo_de_caja_neto : Qc;
  saldo_caja_final : Qc
}.

Global Instance PnlEntry_eq_dec : EqDecision PnlEntry.
Proof. solve_decision. Defined.
Global Instance CashflowEntry_eq_dec : EqDecision CashflowEntry.
Proof. solve_decision. Defined.

(** [parsed.pnl_projection] as the handler writes it in projection mode when
    there is history ([monthlyAggregates.length] is not 0). *)
Definition pnlProjection (H : Host) (monthlyAggregates : list MonthlyAggregate)
    (projectionBaseline : ProjectionBaseline) : list PnlEntry :=
  let baselineIncome := ingresosPromedioRecurrentes projectionBaseline in
  let seasonalityProjection :=
    projectIncomeWithSeasonality H monthlyAggregates baselineIncome 12 (lit 1.0) in
  (λ proj,
     let costosFijos := costosFijosReales projectionBaseline in
     let tasaCostoVar := tasaCostoVariable projectionBaseline in
     let costoVar := projectedIncome proj * tasaCostoVar in
     let utilidad := projectedIncome proj - costoVar - costosFijos in
     {| mes := p_month proj;
        ventas_devengado := projectedIncome proj;
        costos_variables := costoVar;
        costos_fijos := costosFijos;
        utilidad_operativa := utilidad |}) <$> seasonalityProjection.

(** The callback that builds [parsed.cashflow_projection], with the variable
    [runningCash] that it updates from one entry to the next. *)
Fixpoint cashflowFrom (runningCash : Qc) (pnl : list PnlEntry) : list CashflowEntry :=
  match pnl with
  | [] => []
  | entry :: rest =>
      let netFlow := utilidad_operativa entry in
      let runningCash := runningCash + netFlow in
      {| cf_mes := mes entry;
         ingresos_percibidos := ventas_devengado entry;
         egresos_totales := costos_variables entry + costos_fijos entry;
         flujo_de_caja_neto := netFlow;
         saldo_caja_final := runningCash |}
      :: cashflowFrom runningCash rest
  end.

(** [parsed.cashflow_projection] when the answer of the model has none. *)
Definition cashflowProjection (projectionBaseline : ProjectionBaseline)
    (pnl : list PnlEntry) : list CashflowEntry :=
  cashflowFrom (saldoCajaActual projectionBaseline) pnl.

(** [!previous] and [current ?] test a finite number against zero. *)
Definition percentChange (current previous : Qc) : Qc :=
  if decide (previous = 0) then (if decide (current = 0) then 0 else Qc_of_Z 100)
  else round ((current - previous) / previous * Qc_of_Z 100).

End Route.

(** ** A host for the examples

    UTC as the local time zone, the clock stopped at 2024-06-15T12:00:00Z,
    code-unit order for [localeCompare].  Its [Date] reads the three ISO forms
    that occur below and its [Number] reads unsigned decimal integers; on
    those texts, for days that exist in the calendar and times up to
    23:59:59, it agrees with ECMAScript. *)

Module RefHost.
Local Open Scope Z_scope.

Definition msPerDay : Z := 86400000.

(** Days since 1970-01-01 of a date of the proleptic Gregorian calendar. *)
Definition days_from_civil (y m d : Z) : Z :=
  let y' := if decide (m ≤ 2) then y - 1 else y in
  let era := y' `div` 400 in
  let yoe := y' - era * 400 in
  let doy := (153 * (if decide (2 < m) then m - 3 else m + 9) + 2) `div` 5 + d - 1 in
  let doe := yoe * 365 + yoe `div` 4 - yoe `div` 100 + doy in
  era * 146097 + doe - 719468.

Definition civil_from_days (z : Z) : Z * Z * Z :=
  let z' := z + 719468 in
  let era := z' `div` 146097 in
  let doe := z' - era * 146097 in
  let yoe := (doe - doe `div` 1460 + doe `div` 36524 - doe `div` 146096) `div` 365 in
  let doy := doe - (365 * yoe + yoe `div` 4 - yoe `div` 100) in
  let mp := (5 * doy + 2) `div` 153 in
  let d := doy - (153 * mp + 2) `div` 5 + 1 in
  let m := if decide (mp < 10) then mp + 3 else mp - 9 in
  (if decide (m ≤ 2) then yoe + era * 400 + 1 else yoe + era * 400, m, d).

Fixpoint digits_value (acc : Z) (s : string) : option Z :=
  match s with
  | EmptyString => Some acc
  | String c s' =>
      match Ascii.is_nat c with
      | Some n => digits_value (10 * acc + Z.of_nat n) s'
      | None => None
      end
  end.

(** The [len] digits of [s] from position [pos]. *)
Definition field (pos len : nat) (s : string) : option Z :=
  let t := String.substring pos len s in
  if decide (String.length t = len) then digits_value 0 t else None.

Definition sep (pos : nat) (c : string) (s : string) : option unit :=
  if decide (String.substring pos 1 s = c) then Some () else None.

Definition parse_date (s : string) : option Z :=
  y ← field 0 4 s; _ ← sep 4 "-" s;
  m ← field 5 2 s; _ ← sep 7 "-" s;
  d ← field 8 2 s;
  if decide (1 ≤ m ≤ 12 ∧ 1 ≤ d ≤ 31) then Some (days_from_civil y m d * msPerDay)
  else None.

Definition parse_time (s : string) : option Z :=
  _ ← sep 10 "T" s;
  hh ← field 11 2 s; _ ← sep 13 ":" s;
  mm ← field 14 2 s; _ ← sep 16 ":" s;
  ss ← field 17 2 s;
  if decide (hh ≤ 23 ∧ mm ≤ 59 ∧ ss ≤ 59) then Some ((hh * 60 + mm) * 60000 + ss * 1000)
  else None.

(** [YYYY-MM-DD], [YYYY-MM-DDTHH:mm:ss] and [YYYY-MM-DDTHH:mm:ss.sssZ]. *)
Definition parse (s : string) : option Z :=
  match String.length s with
  | 10%nat => parse_date s
  | 19%nat => d ← parse_date s; t ← parse_time s; Some (d + t)
  | 24%nat =>
      d ← parse_date s; t ← parse_time s;
      _ ← sep 19 "." s; ms ← field 20 3 s; _ ← sep 23 "Z" s;
      Some (d + t + ms)
  | _ => None
  end.

Definition pad (width : nat) (n : Z) : string :=
  let s := pretty n in
  Nat.iter (width - String.length s) (String "0"%char) s.

Definition year_of (t : Z) : Z := (civil_from_days (t `div` msPerDay)).1.1.
Definition month_of (t : Z) : Z := (civil_from_days (t `div` msPerDay)).1.2.
Definition day_of (t : Z) : Z := (civil_from_days (t `div` msPerDay)).2.

Definition iso (t : Z) : string :=
  let ms := t `mod` msPerDay in
  pad 4 (year_of t) +:+ "-" +:+ pad 2 (month_of t) +:+ "-" +:+ pad 2 (day_of t)
  +:+ "T" +:+ pad 2 (ms `div` 3600000) +:+ ":" +:+ pad 2 ((ms `div` 60000) `mod` 60)
  +:+ ":" +:+ pad 2 ((ms `div` 1000) `mod` 60) +:+ "." +:+ pad 3 (ms `mod` 1000) +:+ "Z".

Definition number_of_text (s : string) : number :=
  if all_digits s then from_option num NaN (digits_value 0 s) else NaN.

Definition clock : Z := days_from_civil 2024 6 15 * msPerDay + 12 * 3600000.
End RefHost.

Definition refHost : Host := {|
  now := RefHost.clock;
  Date_parse := RefHost.parse;
  toISOString := RefHost.iso;
  startOfLocalDay := λ t, (t `div` RefHost.msPerDay * RefHost.msPerDay)%Z;
  getUTCFullYear := RefHost.year_of;
  getUTCMonth := λ t, (RefHost.month_of t - 1)%Z;
  getUTCDate := RefHost.day_of;
  getFullYear := RefHost.year_of;
  getMonth := λ t, (RefHost.month_of t - 1)%Z;
  Number := RefHost.number_of_text;
  localeCompare := String.compare
|}.

(** ** Vocabulary of the statements *)

(** What the smoothing loop makes of one index. *)
Definition dampen (idx : Qc) : Qc :=
  if decide (lit 2.5 < idx) then lit 2.0
  else if decide (idx < lit 0.3) then lit 0.5
  else idx.

(** The incomes observed for calendar month [m], oldest first. *)
Definition observations (H : Host) (m : Z) (aggs : list MonthlyAggregate) : list Qc :=
  income <$> filter (λ a, calendarMonth H (month a) = num m) aggs.

(** The sum of a list of amounts. *)
Definition sumQ (xs : list Qc) : Qc := foldr Qcplus 0 xs.

(** An amount that [round] leaves as it is: a whole number of hundredths. *)
Definition twoDecimals (x : Qc) : Prop := round x = x.

(** The invoices and the expenses that fall under month key [k]. *)
Definition invoicesOf (k : string) (invoices : list InvoiceLine) : list InvoiceLine :=
  filter (λ i, localMonthKey (i_issueDate i) = k) invoices.

Definition expensesOf (fixed : bool) (k : string) (expenses : list ExpenseLine)
    : list ExpenseLine :=
  filter (λ e, localMonthKey (e_issueDate e) = k
               ∧ bool_decide (e_category e ∈ FIXED_COST_CATEGORIES) = fixed)
         expenses.

(** The entry of [k] in a [monthlyMap], the fresh entry when it has none. *)
Definition entryAt (k : string) (m : list (string * MonthEntry)) : MonthEntry :=
  default emptyEntry (Map.get k m).

(** A month key of a calendar month: four digits, a hyphen, 01 to 12. *)
Definition realMonthKey (k : string) : bool :=
  bool_decide (String.length k = 7%nat)
  && all_digits (String.substring 0 4 k)
  && bool_decide (String.substring 4 1 k = "-")
  && bool_decide (String.substring 5 2 k ∈
       ["01"; "02"; "03"; "04"; "05"; "06"; "07"; "08"; "09"; "10"; "11"; "12"]).

(** The issue date is empty or begins with the key of a calendar month. *)
Definition datedOrEmpty (d : string) : Prop :=
  d = EmptyString ∨ realMonthKey (slice0 7 d) = true.

Definition issueDates (invoices : list InvoiceLine) (expenses : list ExpenseLine)
    : list string :=
  (i_issueDate <$> invoices) ++ (e_issueDate <$> expenses).

(** The aggregate of the records that have no issue date. *)
Definition undatedAggregate (invoices : list InvoiceLine) (expenses : list ExpenseLine)
    : MonthlyAggregate :=
  toAggregate
    ("0000-00",
     {| m_income :=
          sumQ (i_total <$> filter (λ i, i_issueDate i = EmptyString) invoices);
        m_fixedExpenses :=
          sumQ (e_totalAmount <$>
                  filter (λ e, e_issueDate e = EmptyString
                               ∧ bool_decide (e_category e ∈ FIXED_COST_CATEGORIES) = true)
                         expenses);
        m_variableExpenses :=
          sumQ (e_totalAmount <$>
                  filter (λ e, e_issueDate e = EmptyString
                               ∧ bool_decide (e_category e ∈ FIXED_COST_CATEGORIES) = false)
                         expenses) |}).

(** The month key that the projector writes for a year and a month. *)
Definition monthKeyOf (y m : Z) : string := pretty y +:+ "-" +:+ pad2 m.

(** ** Sample data *)

Definition sampleExpenseRow (st : AccountingStatus) : SupabaseExpenseRow := {|
  xr_id := "e-1"; xr_document_type := factura; xr_document_series := Some "F001";
  xr_document_number := "000123"; xr_issue_date := "2024-03-05";
  xr_due_date := None; xr_partner_id := None; xr_provider_name := "Proveedor SAC";
  xr_provider_document := None; xr_concept := "Hosting";
  xr_payment_method := Some transferencia; xr_operation_number := None;
  xr_payment_date := None; xr_base_amount := Qc_of_Z 100; xr_igv_amount := Qc_of_Z 18;
  xr_ir_retention := 0; xr_other_taxes := 0; xr_total_amount := Qc_of_Z 118;
  xr_category := servicios; xr_status := st; xr_paid_amount := Qc_of_Z 40;
  xr_notes := None |}.

Definition baselineB : ProjectionBaseline :=
  {| costosFijosReales := Qc_of_Z 1000; tasaCostoVariable := lit 0.5;
     ingresosPromedioRecurrentes := 0; saldoCajaActual := 0 |}.

Definition baselineThirds : ProjectionBaseline :=
  {| costosFijosReales := Qc_of_Z 1000; tasaCostoVariable := lit 0.7;
     ingresosPromedioRecurrentes := Qc_of_Z 700; saldoCajaActual := Qc_of_Z 1000 |}.

Definition baselineC : ProjectionBaseline :=
  {| costosFijosReales := Qc_of_Z 1000; tasaCostoVariable := 0;
     ingresosPromedioRecurrentes := Qc_of_Z 1200; saldoCajaActual := Qc_of_Z 500 |}.

Definition sampleInvoiceRow
    (paid : Q) (due : string) (st : option AccountingStatus) : SupabaseInvoiceRow := {|
  r_id := "a1"; r_invoice_number := Some "F001-7"; r_client := Some "Cliente SAC";
  r_client_id := None; r_ruc := Some "20123456789"; r_description := None;
  r_issue_date := Some "2024-01-10"; r_due_date := Some due;
  r_amount := Some (Qc_of_Z 100); r_vat := Some (Qc_of_Z 18); r_total := None;
  r_paid := Some (lit paid); r_payment_method := None; r_payment_reference := None;
  r_payment_date := None; r_category := None; r_status := st;
  r_retention_ir := None; r_itf := None |}.

(** What [sampleInvoiceRow] is read as, up to the balance and the status. *)
Definition sampleInvoiceRecord
    (paid : Q) (due : string) (bal : Q) (st : InvoiceStatus) : InvoiceRecord := {|
  recordId := "a1"; id := "F001-7"; client := "Cliente SAC"; clientId := None;
  ruc := "20123456789"; description := EmptyString;
  issueDate := "2024-01-10"; dueDate := due;
  amount := Qc_of_Z 100; vat := Qc_of_Z 18; total := Qc_of_Z 118; paid := lit paid;
  balance := lit bal; status := st;
  paymentMethod := None; paymentReference := None; paymentDate := None;
  retentionIR := Some 0; itf := Some 0; category := None |}.

Definition sampleAggregate (key : string) (inc : Z) : MonthlyAggregate :=
  {| month := key; income := Qc_of_Z inc; fixedExpenses := 0;
     variableExpenses := 0; totalExpenses := 0 |}.

(** January at 100 and February at 400. *)
Definition twoMonths : list MonthlyAggregate :=
  [sampleAggregate "2024-01" 100; sampleAggregate "2024-02" 400].

Definition scenarioA_invoices : list InvoiceLine :=
  [ {| i_issueDate := "2024-01-15"; i_total := Qc_of_Z 1000 |};
    {| i_issueDate := "2024-02-03"; i_total := Qc_of_Z 2000 |} ].

Definition scenarioA_expenses : list ExpenseLine :=
  [ {| e_issueDate := "2024-01-20"; e_totalAmount := Qc_of_Z 300;
       e_category := "servicios" |};
    {| e_issueDate := "2024-02-11"; e_totalAmount := Qc_of_Z 100;
       e_category := "personal" |} ].

(** Two invoices whose totals have a third decimal. *)
Definition thirdDecimalInvoices : list InvoiceLine :=
  [ {| i_issueDate := "2024-01-15"; i_total := lit 10.004 |};
    {| i_issueDate := "2024-02-03"; i_total := lit 20.004 |} ].

(** An invoice without a date and one invoice in each of six months. *)
Definition sevenMonths : list InvoiceLine :=
  [ {| i_issueDate := "2024-01-10"; i_total := Qc_of_Z 100 |};
    {| i_issueDate := EmptyString; i_total := Qc_of_Z 50 |};
    {| i_issueDate := "2024-02-10"; i_total := Qc_of_Z 100 |};
    {| i_issueDate := "2024-03-10"; i_total := Qc_of_Z 100 |};
    {| i_issueDate := "2024-04-10"; i_total := Qc_of_Z 100 |};
    {| i_issueDate := "2024-05-10"; i_total := Qc_of_Z 100 |};
    {| i_issueDate := "2024-06-10"; i_total := Qc_of_Z 100 |} ].

Definition undatedExpense : list ExpenseLine :=
  [ {| e_issueDate := EmptyString; e_totalAmount := Qc_of_Z 40;
       e_category := "equipos" |} ].


(** The average income observed for calendar month [m], 0 without
    observation. *)
Definition monthAverage (H : Host) (aggs : list MonthlyAggregate) (m : Z) : Qc :=
  let values := observations H m aggs in
  if decide (0 < length values)%nat then sum_by (λ b, b) values / length_of values
  else 0.

(** The index of calendar month [m] before the smoothing loop. *)
Definition rawIndex (H : Host) (aggs : list MonthlyAggregate) (m : Z) : Qc :=
  if decide (0 < globalAverage H aggs) then
    round (monthAverage H aggs m / globalAverage H aggs)
  else 1.

(** An aggregate with its income multiplied by [c]. *)
Definition scaleIncome (c : Qc) (a : MonthlyAggregate) : MonthlyAggregate :=
  {| month := month a; income := c * income a; fixedExpenses := fixedExpenses a;
     variableExpenses := variableExpenses a; totalExpenses := totalExpenses a |}.

(** What [analyzeSeasonality] returns without history. *)
Definition neutralIndices : list (Z * Qc) := (λ i, (i, 1)) <$> calendarMonths.

(** A month of history without income. *)
Definition idleMonth : list MonthlyAggregate := [sampleAggregate "2024-01" 0].

(** A row whose issue date is not a date. *)
Definition undatableInvoiceRow : SupabaseInvoiceRow := {|
  r_id := "a2"; r_invoice_number := Some "F001-8"; r_client := Some "Cliente SAC";
  r_client_id := None; r_ruc := None; r_description := None;
  r_issue_date := Some "ayer"; r_due_date := Some "2024-02-10";
  r_amount := Some (Qc_of_Z 100); r_vat := Some (Qc_of_Z 18); r_total := None;
  r_paid := None; r_payment_method := None; r_payment_reference := None;
  r_payment_date := None; r_category := None; r_status := None;
  r_retention_ir := None; r_itf := None |}.

(** The text that [toDateInputValue] hands to [Date]: the value, or the clock
    in ISO form when there is none. *)
Definition dateSource (H : Host) (value : option string) : string :=
  default (toISOString H (now H)) value.

(** The due date of a row, the issue date standing in for a missing one. *)
Definition dueOrIssue (row : SupabaseInvoiceRow) : option string :=
  match r_due_date row with Some d => Some d | None => r_issue_date row end.

(** A fixed and a variable expense of half a cent each, in one month. *)
Definition halfCentExpenses : list ExpenseLine :=
  [ {| e_issueDate := "2024-01-20"; e_totalAmount := lit 0.005;
       e_category := "personal" |};
    {| e_issueDate := "2024-01-21"; e_totalAmount := lit 0.005;
       e_category := "servicios" |} ].

(** A comparator that orders its arguments consistently. *)
Definition consistent {A} (cmp : A → A → comparison) : Prop :=
  (∀ x y, cmp x y = Gt → cmp y x ≠ Gt)
  ∧ (∀ x y z, cmp x y ≠ Gt → cmp y z ≠ Gt → cmp x z ≠ Gt).

(** The month key that the dashboard gives to a date, the empty text for a
    date that has none. *)
Definition monthKeyOr (H : Host) (d : string) : string :=
  default EmptyString (Dashboard.formatMonthKey H d).

(** The value of month [k] in the dashboard's [Map], the fresh value when it
    has none. *)
Definition flowAt (k : string) (m : list (string * Dashboard.Flow)) : Dashboard.Flow :=
  default Dashboard.noFlow (Map.get k m).

(** The rounds of the two loops of [buildMonthlyStats] that do not throw. *)
Definition incomeStep (H : Host) (map : list (string * Dashboard.Flow))
    (invoice : InvoiceLine) : list (string * Dashboard.Flow) :=
  let key := monthKeyOr H (i_issueDate invoice) in
  Map.set key
    {| Dashboard.f_income := Dashboard.f_income (flowAt key map) + i_total invoice;
       Dashboard.f_expense := Dashboard.f_expense (flowAt key map) |}
    map.

Definition outgoStep (H : Host) (map : list (string * Dashboard.Flow))
    (expense : ExpenseLine) : list (string * Dashboard.Flow) :=
  let key := monthKeyOr H (e_issueDate expense) in
  Map.set key
    {| Dashboard.f_income := Dashboard.f_income (flowAt key map);
       Dashboard.f_expense := Dashboard.f_expense (flowAt key map) + e_totalAmount expense |}
    map.

(** The dashboard's [Map] after both loops, when neither throws. *)
Definition flows (H : Host) (invoices : list InvoiceLine) (expenses : list ExpenseLine)
    : list (string * Dashboard.Flow) :=
  foldl (outgoStep H) (foldl (incomeStep H) [] invoices) expenses.

(** An invoice whose date is in a thirteenth month. *)
Definition misdatedInvoice : list InvoiceLine :=
  [ {| i_issueDate := "2024-13-01"; i_total := Qc_of_Z 10 |} ].

(** ** Properties *)

(** Closed equations and inequalities between rationals, by evaluation. *)
Ltac qc_eval :=
  lazymatch goal with
  | |- ¬ _ => apply (bool_decide_eq_false_1 _)
  | |- _ => apply (bool_decide_eq_true_1 _)
  end; vm_compute; reflexivity.

Example round_third : round (lit 3333.3333) = lit 3333.33.
Proof. qc_eval. Qed.

Example round_half_up : round (lit 0.005) = lit 0.01 ∧ round (lit (-0.005)) = 0.
Proof. split; qc_eval. Qed.

(** *** Numbers *)

Lemma Math_max_0_nonneg x : 0 ≤ Math_max x 0.
Proof.
  unfold Math_max. case_decide as Hx; [done|]. by apply Qcnot_lt_le.
Qed.

(** *** The expense normaliser *)

(** C6: a row whose status is [pagado] is read with its paid amount equal to
    its total, whatever paid amount it stores; a row with any other status
    keeps the paid amount it stores. *)
Theorem mapExpenseRow_paidAmount (row : SupabaseExpenseRow) :
  ex_totalAmount (mapExpenseRow row) = xr_total_amount row
  ∧ ex_status (mapExpenseRow row) = xr_status row
  ∧ (xr_status row = pagado →
     ex_paidAmount (mapExpenseRow row) = ex_totalAmount (mapExpenseRow row))
  ∧ (xr_status row ≠ pagado →
     ex_paidAmount (mapExpenseRow row) = xr_paid_amount row).
Proof.
  repeat split; simpl; intros; by case_decide.
Qed.


Lemma mapExpenseRow_paidAmount_witness :
  ex_paidAmount (mapExpenseRow (sampleExpenseRow pagado)) = Qc_of_Z 118
  ∧ ex_paidAmount (mapExpenseRow (sampleExpenseRow vencido)) = Qc_of_Z 40.
Proof.
  split.
  - by apply (mapExpenseRow_paidAmount (sampleExpenseRow pagado)).
  - by apply (mapExpenseRow_paidAmount (sampleExpenseRow vencido)).
Defined.

(** *** The baseline *)

(** C7: with no aggregate the baseline is 0, 0, 0 and the cash balance that
    was passed in; and for every input the cash balance of the baseline is the
    one that was passed in. *)
Theorem calculateProjectionBaseline_empty_and_cash
    (monthlyAggregates : list MonthlyAggregate) (cash : Qc) :
  calculateProjectionBaseline [] cash
    = {| costosFijosReales := 0; tasaCostoVariable := 0;
         ingresosPromedioRecurrentes := 0; saldoCajaActual := cash |}
  ∧ saldoCajaActual (calculateProjectionBaseline monthlyAggregates cash) = cash.
Proof.
  split; [reflexivity|].
  unfold calculateProjectionBaseline. by case_decide.
Qed.

(** *** The metrics *)


(** Scenario B of the specification. *)
Example scenario_B :
  puntoEquilibrio (calculateFinancialMetrics baselineB) = Fin (Qc_of_Z 2000).
Proof. qc_eval. Qed.









(** *** The invoice normaliser *)

Lemma withComputedStatus_balance H invoice persisted :
  balance (withComputedStatus H invoice persisted)
  = Math_max (round (total invoice - paid invoice)) 0.
Proof. reflexivity. Qed.

Lemma withComputedStatus_status H invoice persisted :
  let r := withComputedStatus H invoice persisted in
  let computed := if dueBeforeToday H (dueDate r) then Vencido else Pendiente in
  (balance r ≤ 0 → status r = Pagado)
  ∧ (0 < balance r →
     status r = match persisted with
                | Some s => if decide (s = Pagado) then computed else s
                | None => computed
                end).
Proof.
  unfold withComputedStatus. cbn [balance status dueDate].
  generalize (dueBeforeToday H (dueDate invoice)); intros late.
  generalize (Math_max (round (total invoice - paid invoice)) 0); intros b.
  split.
  - intros Hb. destruct persisted; by rewrite !decide_True.
  - intros Hb. assert (¬ b ≤ 0) as Hn by by apply Qclt_not_le.
    destruct persisted as [s|]; rewrite !(decide_False (P := b ≤ 0)) by done;
      [|done].
    destruct (decide (s = Pagado)) as [->|Hs].
    + by rewrite decide_True.
    + rewrite decide_False; [done|]. by intros [? _].
Qed.

Example mapInvoiceRow_sample :
  mapInvoiceRow refHost (sampleInvoiceRow 50.004 "2024-02-10" None)
  = Some (sampleInvoiceRecord 50.004 "2024-02-10" 68 Vencido).
Proof. qc_eval. Qed.




(** *** Maps *)

Section map_facts.
Context {K V : Type} `{EqDecision K}.
Implicit Types (m : list (K * V)) (k : K) (v : V).

Lemma get_set_eq k v m : Map.get k (Map.set k v m) = Some v.
Proof.
  induction m as [|[k' v'] m IH]; simpl.
  - by rewrite decide_True.
  - destruct (decide (k = k')) as [->|Hne]; simpl.
    + by rewrite decide_True.
    + by rewrite decide_False.
Qed.

Lemma get_set_ne k k' v m : k ≠ k' → Map.get k (Map.set k' v m) = Map.get k m.
Proof.
  intros Hne. induction m as [|[k0 v0] m IH]; simpl.
  - by rewrite decide_False.
  - destruct (decide (k' = k0)) as [->|Hne0]; simpl.
    + by rewrite !decide_False.
    + by rewrite IH.
Qed.

Lemma get_set k k' v m :
  Map.get k (Map.set k' v m) = if decide (k = k') then Some v else Map.get k m.
Proof.
  case_decide as Hk; [subst; apply get_set_eq | by apply get_set_ne].
Qed.

Lemma get_None k m : Map.get k m = None ↔ k ∉ Map.keys m.
Proof.
  unfold Map.keys. induction m as [|[k' v'] m IH]; simpl.
  - split; [intros _; apply not_elem_of_nil | done].
  - rewrite not_elem_of_cons, <- IH.
    case_decide as Hk; split; [done | by intros [? _] | done | by intros [_ ?]].
Qed.

Lemma get_Some_elem k v m : Map.get k m = Some v → (k, v) ∈ m.
Proof.
  induction m as [|[k' v'] m IH]; simpl; [done|].
  case_decide as Hk.
  - intros [= ->]. subst. apply elem_of_cons. by left.
  - intros Hg. apply elem_of_cons. right. auto.
Qed.

Lemma elem_get k v m : NoDup (Map.keys m) → (k, v) ∈ m → Map.get k m = Some v.
Proof.
  unfold Map.keys. induction m as [|[k' v'] m IH]; simpl.
  - intros _ Hin. by apply elem_of_nil in Hin.
  - intros [Hk' Hnd]%NoDup_cons [Heq|Hin]%elem_of_cons.
    + injection Heq as -> ->. by rewrite decide_True.
    + rewrite decide_False; [auto|].
      intros ->. apply Hk'. by apply (list_elem_of_fmap_2 fst _ (k', v)).
Qed.

Lemma keys_set k v m :
  Map.keys (Map.set k v m)
  = if decide (k ∈ Map.keys m) then Map.keys m else Map.keys m ++ [k].
Proof.
  unfold Map.keys. induction m as [|[k' v'] m IH].
  - cbn [Map.set fmap list_fmap fst app].
    rewrite decide_False; [done | apply not_elem_of_nil].
  - cbn [Map.set]. destruct (decide (k = k')) as [->|Hne].
    + rewrite decide_True; [done | apply elem_of_cons; by left].
    + rewrite !fmap_cons, IH. cbn [fst]. destruct (decide (k ∈ m.*1)) as [Hin|Hnin].
      * rewrite decide_True; [done | apply elem_of_cons; by right].
      * rewrite decide_False; [done|]. by rewrite not_elem_of_cons.
Qed.

Lemma set_get_id k v m : Map.get k m = Some v → Map.set k v m = m.
Proof.
  induction m as [|[k' v'] m IH]; simpl; [done|].
  case_decide as Hk.
  - intros [= ->]. by subst.
  - intros Hg. by rewrite IH.
Qed.

(** A loop that sets one value per round. *)
Section loop.
Context {I : Type} (g : list (K * V) → I → list (K * V)).
Context (key : I → K) (f : I → V).
Hypothesis g_sets : ∀ m j, g m j = Map.set (key j) (f j) m.

Lemma get_foldl_set_other (js : list I) m k :
  k ∉ key <$> js → Map.get k (foldl g m js) = Map.get k m.
Proof.
  revert m. induction js as [|i js IH]; intros m; simpl; [done|].
  rewrite not_elem_of_cons. intros [Hk Hnin].
  by rewrite IH, g_sets, get_set_ne.
Qed.

Lemma get_foldl_set_in (js : list I) m j :
  NoDup (key <$> js) → j ∈ js → Map.get (key j) (foldl g m js) = Some (f j).
Proof.
  revert m. induction js as [|i js IH]; intros m; simpl.
  - intros _ Hj. by apply elem_of_nil in Hj.
  - intros [Hi Hnd]%NoDup_cons [->|Hj]%elem_of_cons.
    + by rewrite get_foldl_set_other, g_sets, get_set_eq.
    + by apply IH.
Qed.

Lemma keys_foldl_set (js : list I) m :
  NoDup (Map.keys m ++ (key <$> js)) →
  Map.keys (foldl g m js) = Map.keys m ++ (key <$> js).
Proof.
  revert m. induction js as [|i js IH]; intros m; simpl.
  - by rewrite app_nil_r.
  - intros Hnd. rewrite IH, g_sets, keys_set.
    + rewrite decide_False; [by rewrite <- app_assoc|].
      apply NoDup_app in Hnd as (_ & Hdisj & _).
      intros Hin. apply (Hdisj _ Hin). apply elem_of_cons. by left.
    + rewrite g_sets, keys_set. rewrite decide_False.
      * by rewrite <- app_assoc.
      * apply NoDup_app in Hnd as (_ & Hdisj & _).
        intros Hin. apply (Hdisj _ Hin). apply elem_of_cons. by left.
Qed.
End loop.
End map_facts.

(** *** Seasonality *)

Lemma calendarMonths_NoDup : NoDup calendarMonths.
Proof. apply (bool_decide_unpack _). by vm_compute. Qed.

Lemma num_inj i j : num i = num j → i = j.
Proof. unfold num. intros Heq. apply Z2Qc_inj. congruence. Qed.

Lemma smooth_set ind i :
  smooth ind i = match Map.get i ind with
                 | Some idx => Map.set i (dampen idx) ind
                 | None => ind
                 end.
Proof.
  unfold smooth, dampen. destruct (Map.get i ind) as [idx|] eqn:Hg; [|done].
  repeat case_decide; try done. by rewrite set_get_id.
Qed.

Lemma get_foldl_smooth ks ind j :
  NoDup ks →
  Map.get j (foldl smooth ind ks)
  = if decide (j ∈ ks) then dampen <$> Map.get j ind else Map.get j ind.
Proof.
  revert ind. induction ks as [|k ks IH]; intros ind; cbn [foldl].
  - intros _. rewrite decide_False; [done | apply not_elem_of_nil].
  - intros [Hk Hnd]%NoDup_cons. rewrite IH by done.
    assert (Map.get j (smooth ind k)
            = if decide (j = k) then dampen <$> Map.get j ind else Map.get j ind)
      as Hstep.
    { rewrite smooth_set. destruct (decide (j = k)) as [->|Hne].
      - destruct (Map.get k ind) as [idx|] eqn:Hg; simpl; [|done].
        by rewrite get_set_eq.
      - destruct (Map.get k ind); [by rewrite get_set_ne | done]. }
    rewrite Hstep. destruct (decide (j = k)) as [->|Hne].
    + rewrite decide_False by done. rewrite decide_True; [done|].
      apply elem_of_cons. by left.
    + destruct (decide (j ∈ ks)) as [Hin|Hnin].
      * rewrite decide_True; [done | apply elem_of_cons; by right].
      * rewrite decide_False; [done|]. by rewrite not_elem_of_cons.
Qed.

Lemma keys_foldl_smooth ks ind :
  Map.keys (foldl smooth ind ks) = Map.keys ind.
Proof.
  revert ind. induction ks as [|k ks IH]; intros ind; simpl; [done|].
  rewrite IH, smooth_set. destruct (Map.get k ind) as [idx|] eqn:Hg; [|done].
  rewrite keys_set, decide_True; [done|].
  destruct (decide (k ∈ Map.keys ind)) as [|Hnin]; [done|].
  apply get_None in Hnin. congruence.
Qed.

Lemma dampen_bounds idx : lit 0.3 ≤ dampen idx ≤ lit 2.5.
Proof.
  unfold dampen. case_decide as Hhi; [split; qc_eval|].
  case_decide as Hlo; [split; qc_eval|].
  split; by apply Qcnot_lt_le.
Qed.

Lemma calendarMonths_keys_NoDup : NoDup (num <$> calendarMonths).
Proof. apply (bool_decide_unpack _). by vm_compute. Qed.

Lemma get_foldl_push H aggs (m0 : list (number * list Qc)) k vs :
  Map.get k m0 = Some vs →
  Map.get k
    (foldl (λ m agg,
              let key := calendarMonth H (month agg) in
              let values := default [] (Map.get key m) in
              Map.set key (values ++ [income agg]) m) m0 aggs)
  = Some (vs ++ (income <$> filter (λ a, calendarMonth H (month a) = k) aggs)).
Proof.
  revert m0 vs. induction aggs as [|a aggs IH]; intros m0 vs Hget; cbn [foldl].
  - by rewrite filter_nil, fmap_nil, app_nil_r.
  - rewrite filter_cons. destruct (decide (calendarMonth H (month a) = k)) as [Hk|Hk].
    + rewrite (IH _ (vs ++ [income a])).
      * by rewrite fmap_cons, <- app_assoc.
      * cbn zeta. rewrite Hk, Hget. apply get_set_eq.
    + apply IH. cbn zeta. by rewrite get_set_ne.
Qed.

Lemma monthlyByCalendar_get H aggs m :
  m ∈ calendarMonths →
  Map.get (num m) (monthlyByCalendar H aggs) = Some (observations H m aggs).
Proof.
  intros Hm. unfold monthlyByCalendar, observations.
  rewrite (get_foldl_push H aggs _ (num m) []); [done|].
  apply (get_foldl_set_in _ num (λ _, [])); auto using calendarMonths_keys_NoDup.
Qed.

(** The average of the incomes observed for month [m], 0 when there is none. *)
Lemma monthAverages_get H aggs m :
  m ∈ calendarMonths →
  Map.get m (monthAverages H aggs)
  = Some (let values := observations H m aggs in
          if decide (0 < length values)%nat then
            sum_by (λ b, b) values / length_of values
          else 0).
Proof.
  intros Hm. unfold monthAverages.
  rewrite (get_foldl_set_in _ (λ i, i)
             (λ i, let values := default [] (Map.get (num i) (monthlyByCalendar H aggs)) in
                   if decide (0 < length values)%nat then
                     sum_by (λ b, b) values / length_of values
                   else 0)).
  - by rewrite monthlyByCalendar_get.
  - intros m' j. cbn zeta. by case_decide.
  - rewrite list_fmap_id. apply calendarMonths_NoDup.
  - done.
Qed.

Lemma indices_get H aggs m :
  m ∈ calendarMonths →
  Map.get m (indices H aggs)
  = Some (if decide (0 < globalAverage H aggs) then
            round (default 0 (Map.get m (monthAverages H aggs)) / globalAverage H aggs)
          else 1).
Proof.
  intros Hm. unfold indices.
  apply (get_foldl_set_in _ (λ i, i)
           (λ i, if decide (0 < globalAverage H aggs) then
                   round (default 0 (Map.get i (monthAverages H aggs))
                          / globalAverage H aggs)
                 else 1)); [done | | done].
  rewrite list_fmap_id. apply calendarMonths_NoDup.
Qed.

Lemma indices_keys H aggs : Map.keys (indices H aggs) = calendarMonths.
Proof.
  unfold indices.
  rewrite (keys_foldl_set _ (λ i, i)
             (λ i, if decide (0 < globalAverage H aggs) then
                     round (default 0 (Map.get i (monthAverages H aggs))
                            / globalAverage H aggs)
                   else 1)); [by rewrite list_fmap_id | done |].
  rewrite list_fmap_id. apply calendarMonths_NoDup.
Qed.

Lemma analyzeSeasonality_keys H aggs :
  Map.keys (analyzeSeasonality H aggs) = calendarMonths.
Proof.
  unfold analyzeSeasonality. case_decide; [done|].
  by rewrite keys_foldl_smooth, indices_keys.
Qed.

Lemma analyzeSeasonality_get H aggs m :
  aggs ≠ [] →
  Map.get m (analyzeSeasonality H aggs) = dampen <$> Map.get m (indices H aggs).
Proof.
  intros Hne. unfold analyzeSeasonality.
  rewrite decide_False by by destruct aggs.
  rewrite get_foldl_smooth by apply calendarMonths_NoDup.
  case_decide as Hm; [done|].
  assert (Map.get m (indices H aggs) = None) as ->; [|done].
  apply get_None. by rewrite indices_keys.
Qed.

Example analyzeSeasonality_two_months :
  analyzeSeasonality refHost twoMonths
  = [(1, lit 2.4); (2, lit 2.0); (3, lit 0.5); (4, lit 0.5); (5, lit 0.5);
     (6, lit 0.5); (7, lit 0.5); (8, lit 0.5); (9, lit 0.5); (10, lit 0.5);
     (11, lit 0.5); (12, lit 0.5)]%Z.
Proof. qc_eval. Qed.

(** Scenario D of the specification: one month of history has the raw index
    12, which is brought down to 2.0. *)
Example scenario_D :
  Map.get 3%Z (indices refHost [sampleAggregate "2023-03" 900]) = Some (Qc_of_Z 12)
  ∧ Map.get 3%Z (analyzeSeasonality refHost [sampleAggregate "2023-03" 900])
    = Some (lit 2.0).
Proof. split; qc_eval. Qed.

(** C1 as stated fails: with January at 100 and February at 400 the index of
    January is 2.4, which the smoothing loop leaves as it is. *)
Lemma index_between_2_and_2_5 :
  Map.get 1%Z (analyzeSeasonality refHost twoMonths) = Some (lit 2.4)
  ∧ ¬ lit 2.4 ≤ lit 2.0.
Proof. split; qc_eval. Qed.

(** C1, amended: the mapping has the twelve months 1 to 12, and after the
    smoothing loop every index is at least 0.3 and at most 2.5; an index above
    2.5 has become 2.0, one below 0.3 has become 0.5, and any other is kept. *)
Theorem analyzeSeasonality_bounds (H : Host) (aggs : list MonthlyAggregate) :
  Map.keys (analyzeSeasonality H aggs) = calendarMonths
  ∧ Forall (λ kv, lit 0.3 ≤ kv.2 ≤ lit 2.5) (analyzeSeasonality H aggs)
  ∧ (aggs ≠ [] → ∀ m,
       Map.get m (analyzeSeasonality H aggs) = dampen <$> Map.get m (indices H aggs)).
Proof.
  split; [apply analyzeSeasonality_keys|]. split.
  - destruct aggs as [|a aggs].
    + apply Forall_fmap, Forall_forall. intros i _. split; qc_eval.
    + apply Forall_forall. intros [m v] Hin. cbn [snd].
      apply elem_get in Hin;
        [|rewrite analyzeSeasonality_keys; apply calendarMonths_NoDup].
      rewrite analyzeSeasonality_get in Hin by done.
      destruct (Map.get m (indices H (a :: aggs))) as [idx|]; [|done].
      injection Hin as <-. apply dampen_bounds.
  - intros Hne m. by apply analyzeSeasonality_get.
Qed.

Lemma observations_none H m aggs :
  (∀ a, a ∈ aggs → calendarMonth H (month a) ≠ num m) → observations H m aggs = [].
Proof.
  unfold observations. induction aggs as [|a aggs IH]; intros Hnone; [done|].
  rewrite filter_cons, decide_False.
  - apply IH. intros b Hb. apply Hnone, elem_of_cons. by right.
  - apply Hnone, elem_of_cons. by left.
Qed.

(** C9: when the history is not empty and its global average income is
    positive, a calendar month (1 to 12) for which the history has no
    observation has the raw index 0 and receives the index 0.5. *)
Theorem analyzeSeasonality_unobserved_month
    (H : Host) (aggs : list MonthlyAggregate) (m : Z) :
  aggs ≠ [] →
  0 < globalAverage H aggs →
  m ∈ calendarMonths →
  (∀ a, a ∈ aggs → calendarMonth H (month a) ≠ num m) →
  Map.get m (indices H aggs) = Some 0
  ∧ Map.get m (analyzeSeasonality H aggs) = Some (lit 0.5).
Proof.
  intros Hne Hpos Hm Hnone.
  pose proof (observations_none H m aggs Hnone) as Hobs.
  assert (Map.get m (indices H aggs) = Some 0) as Hraw.
  { rewrite indices_get, decide_True, monthAverages_get by done.
    cbn zeta. rewrite Hobs. cbn [length default].
    rewrite decide_False by apply Nat.lt_irrefl.
    unfold Qcdiv, Datatypes.id. rewrite Qcmult_0_l. f_equal. qc_eval. }
  split; [done|].
  rewrite analyzeSeasonality_get, Hraw by done. cbn [fmap option_fmap option_map].
  f_equal; qc_eval.
Qed.

Lemma analyzeSeasonality_unobserved_month_witness :
  Map.get 3%Z (analyzeSeasonality refHost twoMonths) = Some (lit 0.5).
Proof.
  apply (analyzeSeasonality_unobserved_month refHost twoMonths 3).
  - done.
  - qc_eval.
  - apply (bool_decide_unpack _). by vm_compute.
  - apply Forall_forall. apply (bool_decide_unpack _). by vm_compute.
Defined.

(** *** The projector *)

Lemma futureMonth_range H i : (1 ≤ futureMonth H i ≤ 12)%Z.
Proof.
  unfold futureMonth.
  pose proof (Z.mod_pos_bound (getMonth H (now H) + 1 - 1 + i) 12). lia.
Qed.

Lemma futureMonth_calendar H i : futureMonth H i ∈ calendarMonths.
Proof.
  pose proof (futureMonth_range H i) as Hr. unfold calendarMonths.
  assert (∃ n : nat, (n < 12)%nat ∧ futureMonth H i = (1 + Z.of_nat n)%Z)
    as (n & Hn & ->).
  { exists (Z.to_nat (futureMonth H i - 1)). lia. }
  do 12 (destruct n as [|n]; [apply (bool_decide_unpack _); by vm_compute|]). lia.
Qed.

(** Entry [i] is [i] months after the current month. *)
Lemma future_ordinal H i :
  (12 * futureYear H i + (futureMonth H i - 1)
   = 12 * getFullYear H (now H) + getMonth H (now H) + i)%Z.
Proof.
  unfold futureYear, futureMonth.
  pose proof (Z.div_mod (getMonth H (now H) + 1 - 1 + i) 12). lia.
Qed.


Example projection_sample :
  projectIncomeWithSeasonality refHost twoMonths (Qc_of_Z 1000) 8 1
  = [ {| p_month := "2024-07"; projectedIncome := Qc_of_Z 500 |};
      {| p_month := "2024-08"; projectedIncome := Qc_of_Z 500 |};
      {| p_month := "2024-09"; projectedIncome := Qc_of_Z 500 |};
      {| p_month := "2024-10"; projectedIncome := Qc_of_Z 500 |};
      {| p_month := "2024-11"; projectedIncome := Qc_of_Z 500 |};
      {| p_month := "2024-12"; projectedIncome := Qc_of_Z 500 |};
      {| p_month := "2025-01"; projectedIncome := Qc_of_Z 2400 |};
      {| p_month := "2025-02"; projectedIncome := Qc_of_Z 2000 |} ].
Proof. qc_eval. Qed.


(** *** Sums and sorting *)

Lemma sum_by_sumQ {A} (f : A → Qc) (xs : list A) : sum_by f xs = sumQ (f <$> xs).
Proof.
  unfold sum_by.
  assert (∀ acc, foldl (λ acc x, acc + f x) acc xs = acc + sumQ (f <$> xs)) as Hacc.
  { induction xs as [|x xs IH]; intros acc; simpl.
    - by rewrite Qcplus_0_r.
    - by rewrite IH, Qcplus_assoc. }
  by rewrite Hacc, Qcplus_0_l.
Qed.

Lemma sumQ_cons x xs : sumQ (x :: xs) = x + sumQ xs.
Proof. reflexivity. Qed.

Lemma sumQ_zeros {X} (xs : list X) : sumQ ((λ _, 0) <$> xs) = 0.
Proof.
  induction xs as [|x xs IH]; [done|].
  by rewrite fmap_cons, sumQ_cons, IH, Qcplus_0_l.
Qed.

Lemma sumQ_app xs ys : sumQ (xs ++ ys) = sumQ xs + sumQ ys.
Proof.
  induction xs as [|x xs IH]; simpl.
  - by rewrite Qcplus_0_l.
  - by rewrite IH, Qcplus_assoc.
Qed.

Global Instance sumQ_Permutation : Proper ((≡ₚ) ==> (=)) sumQ.
Proof.
  intros xs ys Hp. induction Hp as [|x xs ys _ IH|x y xs|xs ys zs _ IH1 _ IH2]; simpl.
  - done.
  - by rewrite IH.
  - rewrite !Qcplus_assoc. f_equal. apply Qcplus_comm.
  - by rewrite IH1.
Qed.

Section sort_facts.
Context {A : Type} `{EqDecision A} (cmp : A → A → comparison).

Lemma insert_sorted_Permutation x xs : insert_sorted cmp x xs ≡ₚ x :: xs.
Proof.
  induction xs as [|y ys IH]; simpl; [done|].
  destruct (cmp x y); [done | done |].
  rewrite IH. apply Permutation_swap.
Qed.

Lemma sort_Permutation xs : sort cmp xs ≡ₚ xs.
Proof.
  induction xs as [|x xs IH]; simpl; [done|].
  by rewrite insert_sorted_Permutation, IH.
Qed.

Lemma length_sort xs : length (sort cmp xs) = length xs.
Proof. by rewrite sort_Permutation. Qed.

(** An element that the comparator puts before every other one comes out
    first. *)
Lemma head_sort xs z :
  z ∈ xs →
  (∀ x, x ∈ xs → x ≠ z → cmp z x ≠ Gt ∧ cmp x z = Gt) →
  head (sort cmp xs) = Some z.
Proof.
  induction xs as [|x xs IH]; intros Hz Hlow.
  - by apply elem_of_nil in Hz.
  - cbn [sort foldr]. fold (sort cmp xs).
    destruct (sort cmp xs) as [|y ys] eqn:Hs.
    + assert (xs = []) as ->.
      { apply Permutation_nil_r. by rewrite <- Hs, sort_Permutation. }
      apply elem_of_cons in Hz as [->|Hz]; [done | by apply elem_of_nil in Hz].
    + assert (y ∈ xs) as Hy.
      { rewrite <- sort_Permutation, Hs. apply elem_of_cons. by left. }
      cbn [insert_sorted].
      destruct (decide (z ∈ xs)) as [Hin|Hnin].
      * assert (y = z) as ->.
        { assert (head (y :: ys) = Some z) as Hh; [|by injection Hh].
          apply IH; [done|]. intros x' Hx'. apply Hlow, elem_of_cons. by right. }
        destruct (decide (x = z)) as [->|Hxz].
        -- by destruct (cmp z z).
        -- destruct (Hlow x) as [_ ->]; [apply elem_of_cons; by left | done | done].
      * apply elem_of_cons in Hz as [->|Hz]; [|done].
        destruct (Hlow y) as [Hgt _];
          [apply elem_of_cons; by right | by intros -> |].
        by destruct (cmp x y).
Qed.
End sort_facts.

(** *** Amounts of two decimals *)

Lemma hundred_nonzero : Qc_of_Z 100 ≠ 0.
Proof. qc_eval. Qed.

Lemma Qfloor_half (z : Z) : Qfloor (inject_Z z + (1 # 2))%Q = z.
Proof.
  pose proof (Qfloor_le (inject_Z z + (1 # 2))%Q) as Hle.
  pose proof (Qlt_floor (inject_Z z + (1 # 2))%Q) as Hlt.
  revert Hle Hlt. generalize (Qfloor (inject_Z z + (1 # 2))%Q). intros f.
  unfold Qle, Qlt, Qplus, inject_Z. simpl. lia.
Qed.

Lemma Math_round_integer (z : Z) : Math_round (Qc_of_Z z) = Qc_of_Z z.
Proof.
  unfold Math_round. f_equal. rewrite <- (Qfloor_half z) at 2.
  apply Qfloor_comp. unfold lit, Qcplus, Q2Qc, Qc_of_Z. cbn [this].
  rewrite !Qred_correct. apply Qplus_comp; [reflexivity | by vm_compute].
Qed.

Lemma round_hundredths (z : Z) :
  round (Qc_of_Z z / Qc_of_Z 100) = Qc_of_Z z / Qc_of_Z 100.
Proof.
  unfold round. rewrite Qcmult_comm, Qcmult_div_r by apply hundred_nonzero.
  by rewrite Math_round_integer.
Qed.

Lemma twoDecimals_hundredths x :
  twoDecimals x ↔ ∃ z : Z, x = Qc_of_Z z / Qc_of_Z 100.
Proof.
  split.
  - unfold twoDecimals, round, Math_round. intros Hx.
    exists (Qfloor ((x * Qc_of_Z 100)%Qc + lit 0.5)%Q). symmetry. exact Hx.
  - intros [z Hz]. subst x. unfold twoDecimals. apply round_hundredths.
Qed.

Lemma twoDecimals_0 : twoDecimals 0.
Proof. qc_eval. Qed.

Lemma twoDecimals_plus x y : twoDecimals x → twoDecimals y → twoDecimals (x + y).
Proof.
  rewrite !twoDecimals_hundredths. intros [a ->] [b ->]. exists (a + b)%Z.
  unfold Qcdiv. by rewrite Z2Qc_inj_add, Qcmult_plus_distr_l.
Qed.

Lemma twoDecimals_sumQ xs : Forall twoDecimals xs → twoDecimals (sumQ xs).
Proof.
  induction 1 as [|x xs Hx _ IH]; simpl.
  - apply twoDecimals_0.
  - by apply twoDecimals_plus.
Qed.

(** *** The aggregator *)

Section keyed_loop.
Context {K V X : Type} `{EqDecision K}.
Context (g : list (K * V) → X → list (K * V)) (keyOf : X → K).
Hypothesis g_sets : ∀ m x, ∃ v, g m x = Map.set (keyOf x) v m.

Lemma elem_of_keys_set (k k' : K) (v : V) m :
  k ∈ Map.keys (Map.set k' v m) ↔ k = k' ∨ k ∈ Map.keys m.
Proof.
  rewrite keys_set. case_decide as Hin.
  - split; [by right | by intros [->|]].
  - rewrite elem_of_app, list_elem_of_singleton. tauto.
Qed.

Lemma NoDup_keys_set (k : K) (v : V) m :
  NoDup (Map.keys m) → NoDup (Map.keys (Map.set k v m)).
Proof.
  intros Hnd. rewrite keys_set. case_decide as Hin; [done|].
  apply NoDup_app. split; [done|]. split; [|apply NoDup_singleton].
  intros k' Hk' ->%list_elem_of_singleton. done.
Qed.

Lemma keys_foldl_keyed xs m k :
  k ∈ Map.keys (foldl g m xs) ↔ k ∈ Map.keys m ∨ k ∈ keyOf <$> xs.
Proof.
  revert m. induction xs as [|x xs IH]; intros m; cbn [foldl].
  - rewrite fmap_nil, elem_of_nil. tauto.
  - rewrite IH, fmap_cons, elem_of_cons. destruct (g_sets m x) as [v ->].
    rewrite elem_of_keys_set. tauto.
Qed.

Lemma NoDup_foldl_keyed xs m :
  NoDup (Map.keys m) → NoDup (Map.keys (foldl g m xs)).
Proof.
  revert m. induction xs as [|x xs IH]; intros m Hnd; cbn [foldl]; [done|].
  apply IH. destruct (g_sets m x) as [v ->]. by apply NoDup_keys_set.
Qed.
End keyed_loop.

Lemma addInvoice_sets m i : ∃ v, addInvoice m i = Map.set (localMonthKey (i_issueDate i)) v m.
Proof. by eexists. Qed.

Lemma addExpense_sets m e : ∃ v, addExpense m e = Map.set (localMonthKey (e_issueDate e)) v m.
Proof. by eexists. Qed.

Lemma monthlyMap_NoDup invoices expenses : NoDup (Map.keys (monthlyMap invoices expenses)).
Proof.
  unfold monthlyMap.
  apply (NoDup_foldl_keyed _ _ addExpense_sets).
  apply (NoDup_foldl_keyed _ _ addInvoice_sets). apply NoDup_nil_2.
Qed.

Lemma monthlyMap_keys invoices expenses k :
  k ∈ Map.keys (monthlyMap invoices expenses)
  ↔ k ∈ (λ i, localMonthKey (i_issueDate i)) <$> invoices
    ∨ k ∈ (λ e, localMonthKey (e_issueDate e)) <$> expenses.
Proof.
  unfold monthlyMap.
  rewrite (keys_foldl_keyed _ _ addExpense_sets), (keys_foldl_keyed _ _ addInvoice_sets).
  unfold Map.keys at 1. rewrite fmap_nil, elem_of_nil. tauto.
Qed.

Lemma entryAt_set k k' e m :
  entryAt k (Map.set k' e m) = if decide (k = k') then e else entryAt k m.
Proof. unfold entryAt. rewrite get_set. by case_decide. Qed.

Lemma addInvoice_entry k m i :
  entryAt k (addInvoice m i)
  = if decide (localMonthKey (i_issueDate i) = k) then
      {| m_income := m_income (entryAt k m) + i_total i;
         m_fixedExpenses := m_fixedExpenses (entryAt k m);
         m_variableExpenses := m_variableExpenses (entryAt k m) |}
    else entryAt k m.
Proof.
  unfold addInvoice. cbn zeta. rewrite entryAt_set.
  destruct (decide (localMonthKey (i_issueDate i) = k)) as [<-|Hne].
  - by rewrite decide_True.
  - by rewrite decide_False.
Qed.

Lemma addExpense_entry k m e :
  entryAt k (addExpense m e)
  = if decide (localMonthKey (e_issueDate e) = k) then
      if bool_decide (e_category e ∈ FIXED_COST_CATEGORIES) then
        {| m_income := m_income (entryAt k m);
           m_fixedExpenses := m_fixedExpenses (entryAt k m) + e_totalAmount e;
           m_variableExpenses := m_variableExpenses (entryAt k m) |}
      else
        {| m_income := m_income (entryAt k m);
           m_fixedExpenses := m_fixedExpenses (entryAt k m);
           m_variableExpenses := m_variableExpenses (entryAt k m) + e_totalAmount e |}
    else entryAt k m.
Proof.
  unfold addExpense. cbn zeta. rewrite entryAt_set.
  destruct (decide (localMonthKey (e_issueDate e) = k)) as [<-|Hne].
  - by rewrite decide_True.
  - by rewrite decide_False.
Qed.

Lemma foldl_addInvoice_entry k invoices m :
  entryAt k (foldl addInvoice m invoices)
  = {| m_income := m_income (entryAt k m) + sumQ (i_total <$> invoicesOf k invoices);
       m_fixedExpenses := m_fixedExpenses (entryAt k m);
       m_variableExpenses := m_variableExpenses (entryAt k m) |}.
Proof.
  revert m. induction invoices as [|i invoices IH]; intros m; cbn [foldl].
  - unfold invoicesOf. rewrite filter_nil, fmap_nil. cbn [sumQ foldr].
    rewrite Qcplus_0_r. by destruct (entryAt k m).
  - rewrite IH, addInvoice_entry. unfold invoicesOf. rewrite filter_cons.
    destruct (decide (localMonthKey (i_issueDate i) = k)) as [Hk|Hk]; [|done].
    rewrite fmap_cons. cbn [sumQ foldr m_income m_fixedExpenses m_variableExpenses].
    by rewrite Qcplus_assoc.
Qed.

Lemma foldl_addExpense_entry k expenses m :
  entryAt k (foldl addExpense m expenses)
  = {| m_income := m_income (entryAt k m);
       m_fixedExpenses :=
         m_fixedExpenses (entryAt k m)
         + sumQ (e_totalAmount <$> expensesOf true k expenses);
       m_variableExpenses :=
         m_variableExpenses (entryAt k m)
         + sumQ (e_totalAmount <$> expensesOf false k expenses) |}.
Proof.
  revert m. induction expenses as [|e expenses IH]; intros m; cbn [foldl].
  - unfold expensesOf. rewrite !filter_nil, fmap_nil. cbn [sumQ foldr].
    rewrite !Qcplus_0_r. by destruct (entryAt k m).
  - rewrite IH, addExpense_entry. unfold expensesOf. rewrite !filter_cons.
    destruct (decide (localMonthKey (e_issueDate e) = k)) as [Hk|Hk].
    + destruct (bool_decide (e_category e ∈ FIXED_COST_CATEGORIES)) eqn:Hcat.
      * rewrite decide_True by done. rewrite decide_False by (by intros [_ ?]).
        rewrite fmap_cons.
        cbn [sumQ foldr m_income m_fixedExpenses m_variableExpenses].
        by rewrite Qcplus_assoc.
      * rewrite decide_False by (by intros [_ ?]). rewrite decide_True by done.
        rewrite fmap_cons.
        cbn [sumQ foldr m_income m_fixedExpenses m_variableExpenses].
        by rewrite Qcplus_assoc.
    + by rewrite !decide_False by (by intros [? _]).
Qed.

(** The entry of every month key after both loops. *)
Lemma monthlyMap_entry k invoices expenses :
  entryAt k (monthlyMap invoices expenses)
  = {| m_income := sumQ (i_total <$> invoicesOf k invoices);
       m_fixedExpenses := sumQ (e_totalAmount <$> expensesOf true k expenses);
       m_variableExpenses := sumQ (e_totalAmount <$> expensesOf false k expenses) |}.
Proof.
  unfold monthlyMap. rewrite foldl_addExpense_entry, foldl_addInvoice_entry.
  unfold entryAt at 1 2 3. cbn [Map.get default from_option emptyEntry m_income
    m_fixedExpenses m_variableExpenses].
  by rewrite !Qcplus_0_l.
Qed.

Lemma sumQ_set (f : MonthEntry → Qc) k e (m : list (string * MonthEntry)) :
  f emptyEntry = 0 →
  sumQ ((λ kv, f kv.2) <$> Map.set k e m)
  = sumQ ((λ kv, f kv.2) <$> m) + (f e - f (entryAt k m)).
Proof.
  intros Hf. unfold entryAt. induction m as [|[k' v'] m IH]; cbn [Map.set Map.get].
  - cbn [fmap list_fmap sumQ foldr snd default from_option]. rewrite Hf. ring.
  - destruct (decide (k = k')) as [->|Hne].
    + rewrite !fmap_cons, !sumQ_cons. cbn [snd default from_option].
      unfold Datatypes.id. ring.
    + rewrite !fmap_cons, !sumQ_cons, IH. cbn [snd]. ring.
Qed.

(** A loop whose rounds each add a known amount to a sum over the map. *)
Lemma sumQ_foldl {X} (S : list (string * MonthEntry) → Qc)
    (g : list (string * MonthEntry) → X → list (string * MonthEntry))
    (δ : X → Qc) xs m :
  (∀ m' x, S (g m' x) = S m' + δ x) →
  S (foldl g m xs) = S m + sumQ (δ <$> xs).
Proof.
  intros Hg. revert m. induction xs as [|x xs IH]; intros m; cbn [foldl].
  - rewrite fmap_nil. change (sumQ []) with (Q2Qc 0). by rewrite Qcplus_0_r.
  - by rewrite IH, Hg, fmap_cons, sumQ_cons, Qcplus_assoc.
Qed.

Lemma monthlyMap_income_sum invoices expenses :
  sumQ ((λ kv, m_income kv.2) <$> monthlyMap invoices expenses)
  = sumQ (i_total <$> invoices).
Proof.
  unfold monthlyMap.
  rewrite (sumQ_foldl (λ m, sumQ ((λ kv, m_income kv.2) <$> m)) addExpense (λ _, 0)).
  - rewrite (sumQ_foldl (λ m, sumQ ((λ kv, m_income kv.2) <$> m)) addInvoice i_total).
    + rewrite fmap_nil, sumQ_zeros. change (sumQ []) with (Q2Qc 0).
      by rewrite Qcplus_0_l, Qcplus_0_r.
    + intros m i. unfold addInvoice. cbn zeta. rewrite sumQ_set by done.
      cbn [m_income]. unfold entryAt. ring.
  - intros m e. unfold addExpense. cbn zeta. rewrite sumQ_set by done.
    unfold entryAt. case_bool_decide; cbn [m_income]; ring.
Qed.

Lemma monthlyMap_expenses_sum invoices expenses :
  sumQ ((λ kv, m_fixedExpenses kv.2 + m_variableExpenses kv.2)
          <$> monthlyMap invoices expenses)
  = sumQ (e_totalAmount <$> expenses).
Proof.
  unfold monthlyMap.
  rewrite (sumQ_foldl
             (λ m, sumQ ((λ kv, m_fixedExpenses kv.2 + m_variableExpenses kv.2) <$> m))
             addExpense e_totalAmount).
  - rewrite (sumQ_foldl
               (λ m, sumQ ((λ kv, m_fixedExpenses kv.2 + m_variableExpenses kv.2) <$> m))
               addInvoice (λ _, 0)).
    + rewrite fmap_nil, sumQ_zeros. change (sumQ []) with (Q2Qc 0).
      by rewrite !Qcplus_0_l.
    + intros m i. unfold addInvoice. cbn zeta.
      rewrite (sumQ_set (λ e, m_fixedExpenses e + m_variableExpenses e))
        by apply Qcplus_0_l.
      cbn [m_fixedExpenses m_variableExpenses]. unfold entryAt. ring.
  - intros m e. unfold addExpense. cbn zeta.
    rewrite (sumQ_set (λ e, m_fixedExpenses e + m_variableExpenses e))
      by apply Qcplus_0_l.
    unfold entryAt. case_bool_decide; cbn [m_fixedExpenses m_variableExpenses]; ring.
Qed.

(** Every entry of the map is the one that [monthlyMap_entry] describes. *)
Lemma monthlyMap_elem k e invoices expenses :
  (k, e) ∈ monthlyMap invoices expenses →
  e = {| m_income := sumQ (i_total <$> invoicesOf k invoices);
         m_fixedExpenses := sumQ (e_totalAmount <$> expensesOf true k expenses);
         m_variableExpenses := sumQ (e_totalAmount <$> expensesOf false k expenses) |}.
Proof.
  intros Hin. apply elem_get in Hin; [|apply monthlyMap_NoDup].
  rewrite <- monthlyMap_entry. unfold entryAt. by rewrite Hin.
Qed.

Lemma buildMonthlyAggregates_months H invoices expenses :
  month <$> buildMonthlyAggregates H invoices expenses
  ≡ₚ Map.keys (monthlyMap invoices expenses).
Proof.
  unfold buildMonthlyAggregates, Map.keys.
  rewrite <- list_fmap_compose. by rewrite sort_Permutation.
Qed.

Lemma buildMonthlyAggregates_elem H invoices expenses a :
  a ∈ buildMonthlyAggregates H invoices expenses →
  ∃ e, (month a, e) ∈ monthlyMap invoices expenses ∧ a = toAggregate (month a, e).
Proof.
  unfold buildMonthlyAggregates. intros ([k e] & -> & Hin)%list_elem_of_fmap.
  rewrite sort_Permutation in Hin. by exists e.
Qed.

Lemma twoDecimals_invoicesOf k invoices :
  Forall (λ i, twoDecimals (i_total i)) invoices →
  twoDecimals (sumQ (i_total <$> invoicesOf k invoices)).
Proof.
  intros Hall. apply twoDecimals_sumQ, Forall_fmap, Forall_forall.
  intros i [_ Hi]%list_elem_of_filter. by apply (proj1 (Forall_forall _ _) Hall).
Qed.

Lemma twoDecimals_expensesOf b k expenses :
  Forall (λ e, twoDecimals (e_totalAmount e)) expenses →
  twoDecimals (sumQ (e_totalAmount <$> expensesOf b k expenses)).
Proof.
  intros Hall. apply twoDecimals_sumQ, Forall_fmap, Forall_forall.
  intros e [_ He]%list_elem_of_filter. by apply (proj1 (Forall_forall _ _) Hall).
Qed.

(** Scenario A of the specification. *)
Example scenario_A :
  buildMonthlyAggregates refHost scenarioA_invoices scenarioA_expenses
  = [ {| month := "2024-01"; income := Qc_of_Z 1000; fixedExpenses := 0;
         variableExpenses := Qc_of_Z 300; totalExpenses := Qc_of_Z 300 |};
      {| month := "2024-02"; income := Qc_of_Z 2000; fixedExpenses := Qc_of_Z 100;
         variableExpenses := 0; totalExpenses := Qc_of_Z 100 |} ].
Proof. qc_eval. Qed.




(** *** The key of undated records *)

Lemma digit_cases c :
  is_digit c = true →
  c ∈ ["0"; "1"; "2"; "3"; "4"; "5"; "6"; "7"; "8"; "9"]%char.
Proof.
  destruct c as [[] [] [] [] [] [] [] []]; intros Hc; try discriminate Hc;
    apply (bool_decide_unpack _); by vm_compute.
Qed.

Lemma compare_zero_digit c s t :
  is_digit c = true →
  String.compare s t = Lt →
  String.compare (String "0"%char s) (String c t) = Lt.
Proof.
  intros Hc%digit_cases Hst. cbn [String.compare].
  repeat (apply elem_of_cons in Hc as [->|Hc]; [by (vm_compute || (cbn; rewrite Hst))|]).
  by apply elem_of_nil in Hc.
Qed.

(** In code-unit order the key [0000-00] is below the key of every calendar
    month. *)
Lemma zero_key_lowest k :
  realMonthKey k = true →
  String.compare "0000-00" k = Lt ∧ String.compare k "0000-00" = Gt.
Proof.
  intros Hk. assert (String.compare "0000-00" k = Lt) as Hlt.
  { unfold realMonthKey in Hk.
    apply andb_prop in Hk as [Hk Hm]. apply andb_prop in Hk as [Hk Hdash].
    apply andb_prop in Hk as [Hlen Hy].
    apply bool_decide_eq_true in Hlen, Hdash, Hm.
    destruct k as [|c0 [|c1 [|c2 [|c3 [|c4 [|c5 [|c6 [|]]]]]]]];
      try discriminate Hlen.
    cbn in Hy, Hdash, Hm.
    apply andb_prop in Hy as [H0 Hy]. apply andb_prop in Hy as [H1 Hy].
    apply andb_prop in Hy as [H2 Hy]. apply andb_prop in Hy as [H3 _].
    injection Hdash as ->.
    do 4 (apply compare_zero_digit; [done|]).
    repeat (apply elem_of_cons in Hm as [Hm|Hm];
            [injection Hm as -> ->; by vm_compute|]).
    by apply elem_of_nil in Hm. }
  split; [done|]. by rewrite String.compare_antisym, Hlt.
Qed.

Example zero_key_is_not_a_month : realMonthKey "0000-00" = false.
Proof. by vm_compute. Qed.

Lemma localMonthKey_zero d :
  datedOrEmpty d → localMonthKey d = "0000-00" ↔ d = EmptyString.
Proof.
  intros Hd. unfold localMonthKey. split.
  - case_decide as He; [done|]. intros Hk.
    destruct Hd as [->|Hreal]; [done|].
    rewrite Hk in Hreal. discriminate Hreal.
  - intros ->. by rewrite decide_True.
Qed.

Lemma filter_ext_Forall {A} (P Q : A → Prop)
    `{!∀ x, Decision (P x), !∀ x, Decision (Q x)} (l : list A) :
  Forall (λ x, P x ↔ Q x) l → filter P l = filter Q l.
Proof.
  induction 1 as [|x l Hx _ IH]; [done|].
  rewrite !filter_cons, IH. destruct (decide (P x)) as [HP|HP].
  - by rewrite decide_True by by apply Hx.
  - rewrite decide_False; [done|]. by rewrite <- Hx.
Qed.

Lemma invoicesOf_zero invoices :
  Forall datedOrEmpty (i_issueDate <$> invoices) →
  invoicesOf "0000-00" invoices = filter (λ i, i_issueDate i = EmptyString) invoices.
Proof.
  rewrite Forall_fmap. intros Hi. apply filter_ext_Forall.
  eapply Forall_impl; [exact Hi|]. intros i Hd. by apply localMonthKey_zero.
Qed.

Lemma expensesOf_zero b expenses :
  Forall datedOrEmpty (e_issueDate <$> expenses) →
  expensesOf b "0000-00" expenses
  = filter (λ e, e_issueDate e = EmptyString
                 ∧ bool_decide (e_category e ∈ FIXED_COST_CATEGORIES) = b)
           expenses.
Proof.
  rewrite Forall_fmap. intros He. apply filter_ext_Forall.
  eapply Forall_impl; [exact He|]. intros e Hd. cbn beta.
  by rewrite (localMonthKey_zero _ Hd).
Qed.

Lemma undated_entry invoices expenses :
  Forall datedOrEmpty (issueDates invoices expenses) →
  toAggregate ("0000-00", entryAt "0000-00" (monthlyMap invoices expenses))
  = undatedAggregate invoices expenses.
Proof.
  unfold issueDates. intros [Hi He]%Forall_app.
  rewrite monthlyMap_entry. unfold undatedAggregate.
  by rewrite invoicesOf_zero, !expensesOf_zero.
Qed.

(** The keys of the map are the month keys of the issue dates. *)
Lemma monthlyMap_key_date invoices expenses k :
  k ∈ Map.keys (monthlyMap invoices expenses)
  ↔ ∃ d, d ∈ issueDates invoices expenses ∧ k = localMonthKey d.
Proof.
  rewrite monthlyMap_keys. unfold issueDates. split.
  - intros [(i & -> & Hi)%list_elem_of_fmap | (e & -> & He)%list_elem_of_fmap].
    + exists (i_issueDate i). split; [|done].
      apply elem_of_app. left. by apply list_elem_of_fmap_2.
    + exists (e_issueDate e). split; [|done].
      apply elem_of_app. right. by apply list_elem_of_fmap_2.
  - intros (d & [Hd|Hd]%elem_of_app & ->).
    + apply list_elem_of_fmap in Hd as (i & -> & Hi). left.
      by apply (list_elem_of_fmap_2 (λ i, localMonthKey (i_issueDate i))).
    + apply list_elem_of_fmap in Hd as (e & -> & He). right.
      by apply (list_elem_of_fmap_2 (λ e, localMonthKey (e_issueDate e))).
Qed.

(** A trailing window of a sequence either begins where the sequence begins
    or lies in its tail. *)
Lemma slice_last_cases {A} (n : nat) (x : A) (xs : list A) :
  (n = 0 ∨ length (x :: xs) ≤ n → slice_last n (x :: xs) = x :: xs)%nat
  ∧ ((0 < n < length (x :: xs))%nat → ∀ y, y ∈ slice_last n (x :: xs) → y ∈ xs).
Proof.
  unfold slice_last. split.
  - intros [->|Hn]; [done|]. case_decide; [done|].
    by replace (length (x :: xs) - n)%nat with 0%nat by lia.
  - intros [Hn Hlen]. rewrite decide_False by lia.
    destruct (length (x :: xs) - n)%nat as [|j] eqn:Hj; [lia|].
    cbn [drop]. intros y Hy.
    eapply elem_of_sublist; [exact Hy | apply sublist_drop].
Qed.

Example undated_sample :
  month <$> buildMonthlyAggregates refHost sevenMonths undatedExpense
  = ["0000-00"; "2024-01"; "2024-02"; "2024-03"; "2024-04"; "2024-05"; "2024-06"]
  ∧ head (buildMonthlyAggregates refHost sevenMonths undatedExpense)
    = Some {| month := "0000-00"; income := Qc_of_Z 50; fixedExpenses := Qc_of_Z 40;
              variableExpenses := 0; totalExpenses := Qc_of_Z 40 |}.
Proof. split; qc_eval. Qed.

(** C10 as stated fails for the window that the baseline takes: with an
    undated invoice and invoices in six months there are seven aggregates,
    the undated one first, and the last six begin at 2024-01 and do not
    contain it. *)
Lemma undated_outside_window :
  let out := buildMonthlyAggregates refHost sevenMonths [] in
  month <$> head out = Some "0000-00"
  ∧ month <$> head (slice_last lookbackMonths out) = Some "2024-01"
  ∧ ("0000-00" ∉ month <$> slice_last lookbackMonths out)
  ∧ ingresosPromedioRecurrentes (calculateProjectionBaseline out 0) = Qc_of_Z 100.
Proof. repeat split; qc_eval. Qed.

(** C10, amended: when every issue date is empty or begins with the key of a
    calendar month and [localeCompare] puts [0000-00] before those keys, the
    records without an issue date are gathered under the key [0000-00] (not
    dropped, not dated to the current month) and their aggregate is the first
    of the sequence; a trailing window that covers the whole sequence begins
    with it, and a shorter trailing window does not contain it. *)
Theorem buildMonthlyAggregates_undated_first
    (H : Host) (invoices : list InvoiceLine) (expenses : list ExpenseLine) :
  (∀ k, realMonthKey k = true →
        localeCompare H "0000-00" k = Lt ∧ localeCompare H k "0000-00" = Gt) →
  Forall datedOrEmpty (issueDates invoices expenses) →
  EmptyString ∈ issueDates invoices expenses →
  let out := buildMonthlyAggregates H invoices expenses in
  head out = Some (undatedAggregate invoices expenses)
  ∧ ∀ n : nat,
      ((n = 0 ∨ length out ≤ n)%nat →
       head (slice_last n out) = Some (undatedAggregate invoices expenses))
      ∧ ((0 < n < length out)%nat →
         ∀ a, a ∈ slice_last n out → month a ≠ "0000-00").
Proof.
  intros Hcmp Hdates Hundated out.
  set (mm := monthlyMap invoices expenses).
  set (z := ("0000-00", entryAt "0000-00" mm) : string * MonthEntry).
  assert ("0000-00" ∈ Map.keys mm) as Hkey.
  { apply monthlyMap_key_date. by exists EmptyString. }
  assert (Map.get "0000-00" mm = Some z.2) as Hget.
  { unfold z, entryAt. cbn [snd].
    destruct (Map.get "0000-00" mm) as [e|] eqn:Hg; [done|].
    by apply get_None in Hg. }
  assert (head (sort (λ a b, localeCompare H a.1 b.1) mm) = Some z) as Hsort.
  { apply head_sort.
    - by apply get_Some_elem in Hget.
    - intros [k e] Hin Hne. cbn [fst].
      assert (k ≠ "0000-00") as Hk.
      { intros ->. apply Hne. unfold z. f_equal.
        apply elem_get in Hin; [|apply monthlyMap_NoDup].
        fold mm in Hin. rewrite Hget in Hin. by injection Hin. }
      assert (k ∈ Map.keys mm) as Hkin.
      { by apply (list_elem_of_fmap_2 fst _ (k, e)). }
      apply monthlyMap_key_date in Hkin as (d & Hd & ->).
      pose proof (proj1 (Forall_forall _ _) Hdates d Hd) as Hde.
      assert (d ≠ EmptyString) as Hnonempty by (by intros ->).
      destruct Hde as [->|Hreal]; [done|].
      unfold localMonthKey, z. cbn [fst]. rewrite decide_False by done.
      destruct (Hcmp _ Hreal) as [-> ->]. done. }
  assert (head out = Some (undatedAggregate invoices expenses)) as Hhead.
  { unfold out, buildMonthlyAggregates. fold mm.
    apply head_Some in Hsort as [rest ->]. rewrite fmap_cons. cbn [head].
    f_equal. by apply undated_entry. }
  split; [done|]. intros n.
  apply head_Some in Hhead as [rest Hout].
  pose proof (slice_last_cases n (undatedAggregate invoices expenses) rest)
    as [Hwhole Hshort].
  rewrite Hout. split.
  - intros Hn. by rewrite Hwhole.
  - intros Hn a Ha%Hshort; [|done].
    assert (NoDup (month <$> out)) as Hnd.
    { unfold out. rewrite buildMonthlyAggregates_months. apply monthlyMap_NoDup. }
    rewrite Hout, fmap_cons in Hnd. apply NoDup_cons in Hnd as [Hnot _].
    intros Hm. apply Hnot.
    assert (month (undatedAggregate invoices expenses) = month a) as ->
      by by rewrite Hm.
    by apply list_elem_of_fmap_2.
Qed.

Lemma buildMonthlyAggregates_undated_first_witness :
  head (buildMonthlyAggregates refHost sevenMonths undatedExpense)
  = Some (undatedAggregate sevenMonths undatedExpense).
Proof.
  apply (buildMonthlyAggregates_undated_first refHost sevenMonths undatedExpense).
  - exact zero_key_lowest.
  - apply (bool_decide_unpack _). by vm_compute.
  - apply (bool_decide_unpack _). by vm_compute.
Defined.

(** ** Further properties *)

(** *** Rounding *)

Lemma round_is_hundredths x :
  round x = Qc_of_Z (Qfloor ((x * Qc_of_Z 100)%Qc + lit 0.5)%Q) / Qc_of_Z 100.
Proof. reflexivity. Qed.

Lemma twoDecimals_round x : twoDecimals (round x).
Proof. apply twoDecimals_hundredths. eexists. apply round_is_hundredths. Qed.

(** X1: [round] lands on a whole number of hundredths, so rounding twice is
    rounding once, and it leaves a whole number of hundredths as it is. *)
Theorem round_idempotent (x : Qc) (z : Z) :
  round (round x) = round x
  ∧ (∃ n : Z, round x = Qc_of_Z n / Qc_of_Z 100)
  ∧ round (Qc_of_Z z / Qc_of_Z 100) = Qc_of_Z z / Qc_of_Z 100.
Proof.
  split; [apply twoDecimals_round|]. split; [|apply round_hundredths].
  eexists. apply round_is_hundredths.
Qed.

Lemma this_lit_half : (this (lit 0.5) == 1 # 2)%Q.
Proof. by vm_compute. Qed.

Lemma this_hundred : (this (Qc_of_Z 100) == 100)%Q.
Proof. by vm_compute. Qed.

Lemma this_mult (x y : Qc) : (this (x * y) == this x * this y)%Q.
Proof. unfold Qcmult, Q2Qc. cbn [this]. apply Qred_correct. Qed.

Lemma this_div_hundred (z : Z) :
  (this (Qc_of_Z z / Qc_of_Z 100) == inject_Z z * (1 # 100))%Q.
Proof.
  unfold Qcdiv, Qcmult, Qcinv, Q2Qc, Qc_of_Z. cbn [this].
  rewrite !Qred_correct. reflexivity.
Qed.

Lemma round_bounds (x : Qc) :
  x - lit 0.005 < round x ∧ round x ≤ x + lit 0.005.
Proof.
  rewrite round_is_hundredths.
  pose proof (Qfloor_le ((x * Qc_of_Z 100)%Qc + lit 0.5)%Q) as Hle.
  pose proof (Qlt_floor ((x * Qc_of_Z 100)%Qc + lit 0.5)%Q) as Hlt.
  revert Hle Hlt. generalize (Qfloor ((x * Qc_of_Z 100)%Qc + lit 0.5)%Q).
  intros f Hle Hlt.
  rewrite inject_Z_plus in Hlt. rewrite this_mult, this_hundred, this_lit_half in Hle, Hlt.
  unfold Qclt, Qcle.
  assert (this (x - lit 0.005) == this x - (5 # 1000))%Q as ->.
  { unfold Qcminus, Qcplus, Qcopp, lit, Q2Qc. cbn [this]. rewrite !Qred_correct.
    reflexivity. }
  assert (this (x + lit 0.005) == this x + (5 # 1000))%Q as ->.
  { unfold Qcplus, lit, Q2Qc. cbn [this]. rewrite !Qred_correct. reflexivity. }
  rewrite this_div_hundred. change (inject_Z 1) with 1%Q in Hlt.
  split; lra.
Qed.


Lemma round_le x y : x ≤ y → round x ≤ round y.
Proof.
  intros Hxy. rewrite !round_is_hundredths.
  assert (Qfloor ((x * Qc_of_Z 100)%Qc + lit 0.5)%Q
          ≤ Qfloor ((y * Qc_of_Z 100)%Qc + lit 0.5)%Q)%Z as Hf.
  { apply Qfloor_resp_le. rewrite !this_mult, this_hundred.
    unfold Qcle in Hxy. lra. }
  revert Hf. generalize (Qfloor ((x * Qc_of_Z 100)%Qc + lit 0.5)%Q).
  generalize (Qfloor ((y * Qc_of_Z 100)%Qc + lit 0.5)%Q). intros fy fx Hf.
  unfold Qcle. rewrite !this_div_hundred.
  rewrite Zle_Qle in Hf. lra.
Qed.

Lemma round_0 : round 0 = 0.
Proof. qc_eval. Qed.

Lemma round_nonneg x : 0 ≤ x → 0 ≤ round x.
Proof. intros Hx. rewrite <- round_0. by apply round_le. Qed.

Lemma round_nonpos x : x ≤ 0 → round x ≤ 0.
Proof. intros Hx. rewrite <- round_0. by apply round_le. Qed.

(** X3: [round] keeps the order of its arguments, and with it their sign. *)
Theorem round_monotone (x y : Qc) :
  x ≤ y → round x ≤ round y ∧ (0 ≤ x → 0 ≤ round x) ∧ (y ≤ 0 → round y ≤ 0).
Proof.
  intros Hxy. split; [by apply round_le|].
  split; [apply round_nonneg | apply round_nonpos].
Qed.

Lemma round_monotone_witness : round (lit 1.004) ≤ round (lit 1.006).
Proof.
  destruct (round_monotone (lit 1.004) (lit 1.006)) as [Hm _]; [qc_eval | exact Hm].
Defined.

(** *** Invoices: when they are paid, when they fail to load *)

Lemma Math_max_0_zero_iff x : Math_max x 0 = 0 ↔ x ≤ 0.
Proof.
  unfold Math_max. case_decide as Hx.
  - split; [intros _; by apply Qclt_le_weak | done].
  - split; [intros ->; apply Qcle_refl|].
    intros Hle. apply Qcle_antisym; [done | by apply Qcnot_lt_le].
Qed.

Lemma round_nonpos_iff d : round d ≤ 0 ↔ d < lit 0.005.
Proof.
  split.
  - intros Hr. apply Qcnot_le_lt. intros Hd.
    assert (round (lit 0.005) ≤ round d) as Hm by by apply round_le.
    assert (0 < round (lit 0.005)) as Hpos by qc_eval.
    apply (Qclt_not_le _ _ Hpos). by etrans.
  - intros Hd. rewrite round_is_hundredths.
    pose proof (Qfloor_le ((d * Qc_of_Z 100)%Qc + lit 0.5)%Q) as Hle.
    revert Hle. generalize (Qfloor ((d * Qc_of_Z 100)%Qc + lit 0.5)%Q).
    intros f Hle. rewrite this_mult, this_hundred, this_lit_half in Hle.
    unfold Qclt in Hd.
    assert (this (lit 0.005) == 5 # 1000)%Q as Hlit by by vm_compute.
    rewrite Hlit in Hd.
    assert (f < 1)%Z as Hf.
    { rewrite Zlt_Qlt. change (inject_Z 1) with 1%Q. lra. }
    assert (f ≤ 0)%Z as Hf0 by lia. rewrite Zle_Qle in Hf0.
    unfold Qcle. rewrite this_div_hundred.
    assert (this 0 == 0)%Q as -> by by vm_compute.
    change (inject_Z 0) with 0%Q in Hf0. lra.
Qed.

Lemma withComputedStatus_Pagado_iff H invoice persisted :
  let r := withComputedStatus H invoice persisted in
  status r = Pagado ↔ balance r = 0.
Proof.
  intros r. destruct (withComputedStatus_status H invoice persisted) as [Hpaid Hopen].
  fold r in Hpaid, Hopen.
  assert (0 ≤ balance r) as Hnn by apply Math_max_0_nonneg.
  split.
  - intros Hst. apply Qcle_antisym; [|done]. apply Qcnot_lt_le. intros Hpos.
    rewrite (Hopen Hpos) in Hst.
    destruct persisted as [s|].
    + destruct (decide (s = Pagado)) as [->|Hs]; [|done].
      by destruct (dueBeforeToday H (dueDate r)).
    + by destruct (dueBeforeToday H (dueDate r)).
  - intros Hb. apply Hpaid. rewrite Hb. apply Qcle_refl.
Qed.

(** What [mapInvoiceRow] returns is [withComputedStatus] of a record that has
    the amounts of the row. *)
Lemma mapInvoiceRow_inv H row r :
  mapInvoiceRow H row = Some r →
  ∃ invoice,
    r = withComputedStatus H invoice (ACCOUNTING_STATUS_TO_LABEL <$> r_status row)
    ∧ toDateInputValue H (r_issue_date row) = Some (issueDate invoice)
    ∧ toDateInputValue H (dueOrIssue row) = Some (dueDate invoice).
Proof.
  unfold mapInvoiceRow. fold (dueOrIssue row). intros Hr.
  destruct (toDateInputValue H (r_issue_date row)) as [issue|]; [|done].
  destruct (toDateInputValue H (dueOrIssue row)) as [due|]; [|done].
  cbv [mbind option_bind] in Hr. injection Hr as <-.
  eexists. split; [reflexivity|]. split; reflexivity.
Qed.



Lemma toDateInputValue_None H value :
  toDateInputValue H value = None ↔ Date_parse H (dateSource H value) = None.
Proof.
  unfold toDateInputValue, dateSource.
  by destruct (Date_parse H (default (toISOString H (now H)) value)).
Qed.

(** X5: [mapInvoiceRow] fails (the RangeError of [toISOString]) exactly when
    the text of the issue date or of the due date, the clock standing in for a
    missing issue date and the issue date for a missing due date, is not a
    date for [Date]; it never falls back to the current date for a text that
    does not parse. *)
Theorem mapInvoiceRow_fails_iff (H : Host) (row : SupabaseInvoiceRow) :
  mapInvoiceRow H row = None
  ↔ Date_parse H (dateSource H (r_issue_date row)) = None
    ∨ Date_parse H (dateSource H (dueOrIssue row)) = None.
Proof.
  rewrite <- !toDateInputValue_None. unfold mapInvoiceRow. fold (dueOrIssue row).
  destruct (toDateInputValue H (r_issue_date row)) as [issue|].
  - destruct (toDateInputValue H (dueOrIssue row)) as [due|].
    + cbv [mbind option_bind]. split; [done | by intros [|]].
    + cbv [mbind option_bind]. split; [by right | done].
  - cbv [mbind option_bind]. split; [by left | done].
Qed.

Example mapInvoiceRow_bad_date : mapInvoiceRow refHost undatableInvoiceRow = None.
Proof. by vm_compute. Qed.

(** *** The summary of a list of invoices *)

Lemma summarizeInvoices_fold acc (records : list InvoiceRecord) :
  let t :=
    foldl
      (λ acc invoice,
         {| s_facturado := s_facturado acc + total invoice;
            s_pagado := s_pagado acc + paid invoice;
            s_pendiente := s_pendiente acc + balance invoice;
            s_vencido :=
              if decide (status invoice = Vencido) then s_vencido acc + balance invoice
              else s_vencido acc |})
      acc records in
  s_facturado t = s_facturado acc + sumQ (total <$> records)
  ∧ s_pagado t = s_pagado acc + sumQ (paid <$> records)
  ∧ s_pendiente t = s_pendiente acc + sumQ (balance <$> records)
  ∧ s_vencido t
    = s_vencido acc + sumQ (balance <$> filter (λ r, status r = Vencido) records).
Proof.
  revert acc. induction records as [|r records IH]; intros acc; cbn [foldl].
  - cbn zeta. rewrite !fmap_nil. change (sumQ []) with (Q2Qc 0).
    by rewrite !Qcplus_0_r.
  - cbn zeta. destruct (IH
      {| s_facturado := s_facturado acc + total r;
         s_pagado := s_pagado acc + paid r;
         s_pendiente := s_pendiente acc + balance r;
         s_vencido :=
           if decide (status r = Vencido) then s_vencido acc + balance r
           else s_vencido acc |}) as (-> & -> & -> & ->).
    cbn [s_facturado s_pagado s_pendiente s_vencido].
    rewrite !fmap_cons, !sumQ_cons, filter_cons.
    destruct (decide (status r = Vencido)).
    + rewrite fmap_cons, sumQ_cons. repeat split; ring.
    + repeat split; ring.
Qed.

Lemma sumQ_nonneg xs : Forall (λ x, 0 ≤ x) xs → 0 ≤ sumQ xs.
Proof.
  induction 1 as [|x xs Hx _ IH]; [apply Qcle_refl|].
  rewrite sumQ_cons. replace 0 with (0 + 0) by ring. by apply Qcplus_le_compat.
Qed.

Lemma sumQ_filter_le {A} (f : A → Qc) (P : A → Prop) `{!∀ x, Decision (P x)} xs :
  Forall (λ x, 0 ≤ f x) xs → sumQ (f <$> filter P xs) ≤ sumQ (f <$> xs).
Proof.
  induction 1 as [|x xs Hx _ IH]; [apply Qcle_refl|].
  rewrite filter_cons, fmap_cons, sumQ_cons. destruct (decide (P x)).
  - rewrite fmap_cons, sumQ_cons. by apply Qcplus_le_compat; [apply Qcle_refl|].
  - replace (sumQ (f <$> filter P xs)) with (0 + sumQ (f <$> filter P xs)) by ring.
    by apply Qcplus_le_compat.
Qed.

Lemma mapInvoiceRow_balance_nonneg H row r :
  mapInvoiceRow H row = Some r → 0 ≤ balance r.
Proof. intros (invoice & -> & _)%mapInvoiceRow_inv. apply Math_max_0_nonneg. Qed.

(** X6: [summarizeInvoices] returns the sums of the totals, of the amounts
    paid and of the balances, and the sum of the balances of the invoices that
    are Vencido; for invoices read by [mapInvoiceRow] the overdue amount is
    not negative and is at most the pending amount. *)
Theorem summarizeInvoices_totals (H : Host) (records : list InvoiceRecord) :
  Forall (λ r, ∃ row, mapInvoiceRow H row = Some r) records →
  let t := summarizeInvoices records in
  s_facturado t = sumQ (total <$> records)
  ∧ s_pagado t = sumQ (paid <$> records)
  ∧ s_pendiente t = sumQ (balance <$> records)
  ∧ s_vencido t = sumQ (balance <$> filter (λ r, status r = Vencido) records)
  ∧ 0 ≤ s_vencido t ≤ s_pendiente t.
Proof.
  intros Hmapped t.
  assert (Forall (λ r, 0 ≤ balance r) records) as Hnn.
  { eapply Forall_impl; [exact Hmapped|]. intros r [row Hr].
    by eapply mapInvoiceRow_balance_nonneg. }
  destruct (summarizeInvoices_fold
              {| s_facturado := 0; s_pagado := 0; s_pendiente := 0; s_vencido := 0 |}
              records) as (Hf & Hp & Hb & Hv).
  fold (summarizeInvoices records) in Hf, Hp, Hb, Hv. fold t in Hf, Hp, Hb, Hv.
  cbn [s_facturado s_pagado s_pendiente s_vencido] in Hf, Hp, Hb, Hv.
  rewrite Qcplus_0_l in Hf, Hp, Hb, Hv.
  rewrite Hf, Hp, Hb, Hv. repeat split.
  - apply sumQ_nonneg, Forall_fmap, Forall_forall.
    intros r [_ Hr]%list_elem_of_filter. by apply (proj1 (Forall_forall _ _) Hnn).
  - by apply sumQ_filter_le.
Qed.

Lemma summarizeInvoices_totals_witness :
  s_pendiente (summarizeInvoices [sampleInvoiceRecord 50 "2024-02-10" 68 Vencido])
  = sumQ [lit 68].
Proof.
  apply (summarizeInvoices_totals refHost
           [sampleInvoiceRecord 50 "2024-02-10" 68 Vencido]).
  apply Forall_cons. split; [|apply Forall_nil_2].
  exists (sampleInvoiceRow 50 "2024-02-10" (Some pagado)). qc_eval.
Defined.

(** *** The baseline and the metrics *)

Lemma slice_last_app_length {A} (n : nat) (older recent : list A) :
  n ≠ 0%nat → length recent = n →
  slice_last n (older ++ recent) = slice_last n recent.
Proof.
  intros Hn <-. unfold slice_last. rewrite !decide_False by done.
  - rewrite length_app.
    replace (length older + length recent - length recent)%nat
      with (length older) by lia.
    by rewrite drop_app_length, Nat.sub_diag.
Qed.

(** X7: the baseline reads the last six aggregates only: whatever comes
    before six aggregates does not change it. *)
Theorem calculateProjectionBaseline_window
    (older recent : list MonthlyAggregate) (cash : Qc) :
  length recent = lookbackMonths →
  calculateProjectionBaseline (older ++ recent) cash
  = calculateProjectionBaseline recent cash.
Proof.
  intros Hlen. unfold calculateProjectionBaseline.
  by rewrite (slice_last_app_length lookbackMonths older recent) by done.
Qed.

Lemma calculateProjectionBaseline_window_witness :
  calculateProjectionBaseline
    ([sampleAggregate "2023-12" 900]
     ++ ((λ k, sampleAggregate k 100)
           <$> ["2024-01"; "2024-02"; "2024-03"; "2024-04"; "2024-05"; "2024-06"])) 0
  = calculateProjectionBaseline
      ((λ k, sampleAggregate k 100)
         <$> ["2024-01"; "2024-02"; "2024-03"; "2024-04"; "2024-05"; "2024-06"]) 0.
Proof.
  apply (calculateProjectionBaseline_window [sampleAggregate "2023-12" 900]).
  reflexivity.
Defined.

(** X8: the three figures that the baseline derives are whole numbers of
    hundredths, and the variable-cost rate is 0 whenever the income of the
    window is not positive. *)
Theorem calculateProjectionBaseline_figures
    (aggs : list MonthlyAggregate) (cash : Qc) :
  let b := calculateProjectionBaseline aggs cash in
  twoDecimals (costosFijosReales b)
  ∧ twoDecimals (tasaCostoVariable b)
  ∧ twoDecimals (ingresosPromedioRecurrentes b)
  ∧ (sum_by income (slice_last lookbackMonths aggs) ≤ 0 → tasaCostoVariable b = 0).
Proof.
  unfold calculateProjectionBaseline. cbn zeta. case_decide as Hempty.
  - cbn [costosFijosReales tasaCostoVariable ingresosPromedioRecurrentes].
    repeat split; apply twoDecimals_0.
  - cbn [costosFijosReales tasaCostoVariable ingresosPromedioRecurrentes].
    split; [apply twoDecimals_round|]. split; [|split; [apply twoDecimals_round|]].
    + case_decide; [apply twoDecimals_round | apply twoDecimals_0].
    + intros Hle. rewrite decide_False; [done|]. by apply Qcle_not_lt.
Qed.

Lemma Qcminus_nonpos_iff x y : x - y ≤ 0 ↔ x ≤ y.
Proof.
  rewrite (Qcplus_le_mono_r (x - y) 0 y).
  by replace (x - y + y) with x by ring; replace (0 + y) with y by ring.
Qed.

(** X9: the runway is infinite exactly when the average fixed costs do not
    exceed the average recurring income, the break-even is infinite exactly
    when the variable rate is at least 1 and the fixed costs are positive, and
    neither is ever NaN or negative infinity. *)
Theorem calculateFinancialMetrics_infinite_iff (baseline : ProjectionBaseline) :
  let m := calculateFinancialMetrics baseline in
  (runway m = Infinity
   ↔ costosFijosReales baseline ≤ ingresosPromedioRecurrentes baseline)
  ∧ (puntoEquilibrio m = Infinity
     ↔ 1 ≤ tasaCostoVariable baseline ∧ 0 < costosFijosReales baseline)
  ∧ runway m ≠ NaN ∧ runway m ≠ NegInfinity
  ∧ puntoEquilibrio m ≠ NaN ∧ puntoEquilibrio m ≠ NegInfinity.
Proof.
  unfold calculateFinancialMetrics. cbn [runway puntoEquilibrio].
  set (burn := costosFijosReales baseline - ingresosPromedioRecurrentes baseline).
  set (margin := 1 - tasaCostoVariable baseline).
  split; [split|split; [split|]].
  - destruct (decide (0 < burn)) as [Hb|Hb]; [done|]. intros _.
    by apply Qcminus_nonpos_iff, Qcnot_lt_le.
  - intros Hb%Qcminus_nonpos_iff. fold burn in Hb.
    rewrite decide_False by by apply Qcle_not_lt. by case_decide.
  - destruct (decide (0 < margin)) as [Hm|Hm]; [done|].
    destruct (decide (0 < costosFijosReales baseline)) as [Hf|Hf]; [|done].
    intros _. split; [|done]. by apply (Qcminus_nonpos_iff 1), Qcnot_lt_le.
  - intros [Hm%Qcminus_nonpos_iff Hf]. fold margin in Hm.
    rewrite decide_False by by apply Qcle_not_lt. by rewrite decide_True.
  - repeat split; by repeat case_decide.
Qed.

Lemma sum_by_zero {A} (f : A → Qc) (xs : list A) :
  Forall (λ x, f x = 0) xs → sum_by f xs = 0.
Proof.
  intros Hz. rewrite sum_by_sumQ. induction Hz as [|x xs Hx _ IH]; [done|].
  by rewrite fmap_cons, sumQ_cons, Hx, IH, Qcplus_0_l.
Qed.

Lemma sum_by_nonneg {A} (f : A → Qc) (xs : list A) :
  Forall (λ x, 0 ≤ f x) xs → 0 ≤ sum_by f xs.
Proof. intros Hnn. rewrite sum_by_sumQ. by apply sumQ_nonneg, Forall_fmap. Qed.

Lemma length_of_pos {A} (xs : list A) : xs ≠ [] → 0 < length_of xs.
Proof.
  intros Hne. unfold length_of. rewrite <- Z2Qc_inj_0.
  apply (proj1 (Z2Qc_inj_lt _ _)). destruct xs; [done | cbn [length]; lia].
Qed.

Lemma Qcdiv_nonneg x n : 0 ≤ x → 0 < n → 0 ≤ x / n.
Proof.
  unfold Qcle, Qclt, Qcdiv, Qcmult, Qcinv, Q2Qc. cbn [this]. intros Hx Hn.
  rewrite !Qred_correct. apply Qle_shift_div_l; [done|].
  by rewrite Qmult_0_l.
Qed.

(** X10: when the aggregates of the window have no fixed expenses the
    break-even is 0 whatever the variable rate is, and when moreover no
    income of the window is negative the runway is infinite. *)
Theorem no_fixed_costs_metrics (aggs : list MonthlyAggregate) (cash : Qc) :
  Forall (λ a, fixedExpenses a = 0) (slice_last lookbackMonths aggs) →
  let m := calculateFinancialMetrics (calculateProjectionBaseline aggs cash) in
  puntoEquilibrio m = Fin 0
  ∧ (Forall (λ a, 0 ≤ income a) (slice_last lookbackMonths aggs) →
     runway m = Infinity).
Proof.
  intros Hfixed m.
  assert (costosFijosReales (calculateProjectionBaseline aggs cash) = 0) as Hcf.
  { unfold calculateProjectionBaseline. cbn zeta. case_decide; [done|].
    cbn [costosFijosReales]. rewrite (sum_by_zero _ _ Hfixed).
    unfold Qcdiv. by rewrite Qcmult_0_l, round_0. }
  split.
  - unfold m, calculateFinancialMetrics. cbn [puntoEquilibrio]. rewrite Hcf.
    case_decide.
    + unfold Qcdiv. by rewrite Qcmult_0_l, round_0.
    + by rewrite decide_False by apply (irreflexivity Qclt).
  - intros Hinc.
    assert (0 ≤ ingresosPromedioRecurrentes (calculateProjectionBaseline aggs cash))
      as Hnn.
    { unfold calculateProjectionBaseline. cbn zeta. case_decide as Hempty.
      - apply Qcle_refl.
      - cbn [ingresosPromedioRecurrentes]. apply round_nonneg, Qcdiv_nonneg.
        + by apply sum_by_nonneg.
        + apply length_of_pos. intros Hnil. by rewrite Hnil in Hempty. }
    unfold m, calculateFinancialMetrics. cbn [runway]. rewrite Hcf.
    rewrite decide_False; [by case_decide|].
    apply Qcle_not_lt, Qcminus_nonpos_iff. exact Hnn.
Qed.

Lemma no_fixed_costs_metrics_witness :
  puntoEquilibrio (calculateFinancialMetrics (calculateProjectionBaseline twoMonths 0))
  = Fin 0.
Proof.
  apply (no_fixed_costs_metrics twoMonths 0).
  apply (bool_decide_unpack _). by vm_compute.
Defined.

(** *** Seasonality in closed form *)

Lemma map_of_get {K V} `{EqDecision K} (f : K → V) (ks : list K) (m : list (K * V)) :
  Map.keys m = ks →
  NoDup ks →
  (∀ k, k ∈ ks → Map.get k m = Some (f k)) →
  m = (λ k, (k, f k)) <$> ks.
Proof.
  revert m. induction ks as [|k0 ks IH]; intros m Hkeys Hnd Hget.
  - destruct m; [done | discriminate Hkeys].
  - destruct m as [|[k v] m]; [discriminate Hkeys|].
    unfold Map.keys in Hkeys. rewrite fmap_cons in Hkeys. cbn [fst] in Hkeys.
    injection Hkeys as -> Hkeys. apply NoDup_cons in Hnd as [Hk0 Hnd].
    rewrite fmap_cons. f_equal.
    + f_equal. specialize (Hget k0 ltac:(apply elem_of_cons; by left)).
      cbn [Map.get] in Hget. rewrite decide_True in Hget by done. by injection Hget.
    + apply IH; [done | done |]. intros k Hk.
      specialize (Hget k ltac:(apply elem_of_cons; by right)).
      cbn [Map.get] in Hget. rewrite decide_False in Hget; [done|].
      by intros ->.
Qed.

Lemma monthAverages_keys H aggs : Map.keys (monthAverages H aggs) = calendarMonths.
Proof.
  unfold monthAverages.
  rewrite (keys_foldl_set _ (λ i, i)
             (λ i, let values := default [] (Map.get (num i) (monthlyByCalendar H aggs)) in
                   if decide (0 < length values)%nat then
                     sum_by (λ b, b) values / length_of values
                   else 0)).
  - by rewrite list_fmap_id.
  - intros m' j. cbn zeta. by case_decide.
  - rewrite list_fmap_id. apply calendarMonths_NoDup.
Qed.

Lemma monthAverages_closed H aggs :
  monthAverages H aggs = (λ m, (m, monthAverage H aggs m)) <$> calendarMonths.
Proof.
  apply map_of_get.
  - apply monthAverages_keys.
  - apply calendarMonths_NoDup.
  - intros m Hm. by rewrite monthAverages_get.
Qed.

Lemma indices_closed H aggs :
  indices H aggs = (λ m, (m, rawIndex H aggs m)) <$> calendarMonths.
Proof.
  apply map_of_get.
  - apply indices_keys.
  - apply calendarMonths_NoDup.
  - intros m Hm. rewrite indices_get, monthAverages_get by done.
    unfold rawIndex, monthAverage. cbn [default from_option]. unfold Datatypes.id.
    by case_decide.
Qed.

(** With some history, the index of every month is the smoothed raw index. *)
Lemma analyzeSeasonality_closed H aggs :
  aggs ≠ [] →
  analyzeSeasonality H aggs = (λ m, (m, dampen (rawIndex H aggs m))) <$> calendarMonths.
Proof.
  intros Hne. apply map_of_get.
  - apply analyzeSeasonality_keys.
  - apply calendarMonths_NoDup.
  - intros m Hm. rewrite analyzeSeasonality_get by done.
    rewrite indices_closed.
    rewrite (elem_get m (rawIndex H aggs m)); [done | |].
    + unfold Map.keys. rewrite <- list_fmap_compose, list_fmap_id.
      apply calendarMonths_NoDup.
    + by apply (list_elem_of_fmap_2 (λ m, (m, rawIndex H aggs m))).
Qed.

Lemma globalAverage_closed H aggs :
  globalAverage H aggs
  = sumQ (monthAverage H aggs <$> calendarMonths) / Qc_of_Z 12.
Proof.
  unfold globalAverage. cbn zeta. rewrite monthAverages_closed. unfold Map.values.
  rewrite <- list_fmap_compose. rewrite decide_True.
  - rewrite sum_by_sumQ, list_fmap_id. reflexivity.
  - rewrite length_fmap. cbn. lia.
Qed.

Lemma rawIndex_ext H aggs aggs' :
  (∀ m, m ∈ calendarMonths → monthAverage H aggs m = monthAverage H aggs' m) →
  ∀ m, m ∈ calendarMonths → rawIndex H aggs m = rawIndex H aggs' m.
Proof.
  intros Havg m Hm. unfold rawIndex.
  assert (globalAverage H aggs = globalAverage H aggs') as ->.
  { rewrite !globalAverage_closed. do 2 f_equal.
    apply Forall_fmap_ext_1, Forall_forall. auto. }
  by rewrite Havg.
Qed.

Lemma analyzeSeasonality_ext H aggs aggs' :
  (aggs = [] ↔ aggs' = []) →
  (∀ m, m ∈ calendarMonths → monthAverage H aggs m = monthAverage H aggs' m) →
  analyzeSeasonality H aggs = analyzeSeasonality H aggs'.
Proof.
  intros Hnil Havg. destruct (decide (aggs = [])) as [He|Hne].
  - rewrite He. by rewrite (proj1 Hnil He).
  - assert (aggs' ≠ []) as Hne' by (intros He; by apply Hne, Hnil).
    rewrite !analyzeSeasonality_closed by done.
    apply Forall_fmap_ext_1, Forall_forall. intros m Hm.
    by rewrite (rawIndex_ext H aggs aggs' Havg m Hm).
Qed.



(** X12: an aggregate whose key does not name a calendar month from 1 to 12
    (the key [0000-00] of undated records, for one) does not change the
    indices of a history that is not empty. *)
Theorem analyzeSeasonality_skips_other_keys
    (H : Host) (a : MonthlyAggregate) (aggs : list MonthlyAggregate) :
  aggs ≠ [] →
  (∀ m, m ∈ calendarMonths → calendarMonth H (month a) ≠ num m) →
  analyzeSeasonality H (a :: aggs) = analyzeSeasonality H aggs.
Proof.
  intros Hne Hkey. apply analyzeSeasonality_ext; [done|].
  intros m Hm. unfold monthAverage, observations.
  rewrite filter_cons.
  by rewrite (decide_False (P := calendarMonth H (month a) = num m)) by by apply Hkey.
Qed.

Lemma analyzeSeasonality_skips_other_keys_witness :
  analyzeSeasonality refHost (sampleAggregate "0000-00" 50 :: twoMonths)
  = analyzeSeasonality refHost twoMonths.
Proof.
  apply analyzeSeasonality_skips_other_keys; [done|].
  apply Forall_forall. apply (bool_decide_unpack _). by vm_compute.
Defined.

Lemma dampen_1 : dampen 1 = 1.
Proof. qc_eval. Qed.

(** X13: without history, and with a history whose global average income is
    not positive (no income at all, for one), every index is 1. *)
Theorem analyzeSeasonality_neutral (H : Host) (aggs : list MonthlyAggregate) :
  aggs = [] ∨ globalAverage H aggs ≤ 0 →
  analyzeSeasonality H aggs = neutralIndices.
Proof.
  intros [->|Hg]; [done|]. destruct (decide (aggs = [])) as [->|Hne]; [done|].
  rewrite analyzeSeasonality_closed by done.
  apply Forall_fmap_ext_1, Forall_forall. intros m _. unfold rawIndex.
  rewrite decide_False by by apply Qcle_not_lt. by rewrite dampen_1.
Qed.

Lemma analyzeSeasonality_neutral_witness :
  analyzeSeasonality refHost idleMonth = neutralIndices.
Proof. apply analyzeSeasonality_neutral. right. qc_eval. Defined.

Lemma twoDecimals_dampen x : twoDecimals x → twoDecimals (dampen x).
Proof.
  intros Hx. unfold dampen. repeat case_decide; [| |done]; unfold twoDecimals; qc_eval.
Qed.

Lemma twoDecimals_1 : twoDecimals 1.
Proof. unfold twoDecimals. qc_eval. Qed.

(** X14: every index is a whole number of hundredths. *)
Theorem analyzeSeasonality_two_decimals (H : Host) (aggs : list MonthlyAggregate) :
  Forall (λ kv, twoDecimals kv.2) (analyzeSeasonality H aggs).
Proof.
  destruct (decide (aggs = [])) as [->|Hne].
  - apply Forall_fmap, Forall_forall. intros m _. apply twoDecimals_1.
  - rewrite analyzeSeasonality_closed by done.
    apply Forall_fmap, Forall_forall. intros m _. cbn [compose snd].
    apply twoDecimals_dampen. unfold rawIndex.
    case_decide; [apply twoDecimals_round | apply twoDecimals_1].
Qed.

Lemma sumQ_scale c xs : sumQ (Qcmult c <$> xs) = c * sumQ xs.
Proof.
  induction xs as [|x xs IH].
  - change (sumQ []) with (Q2Qc 0). by rewrite Qcmult_0_r.
  - rewrite fmap_cons, !sumQ_cons, IH. ring.
Qed.

Lemma observations_scale H c m aggs :
  observations H m (scaleIncome c <$> aggs) = Qcmult c <$> observations H m aggs.
Proof.
  unfold observations. induction aggs as [|a aggs IH]; [done|].
  rewrite fmap_cons, !filter_cons. cbn [scaleIncome month].
  destruct (decide (calendarMonth H (month a) = num m)).
  - rewrite !fmap_cons. cbn [income]. by rewrite IH.
  - exact IH.
Qed.

Lemma monthAverage_scale H c m aggs :
  monthAverage H (scaleIncome c <$> aggs) m = c * monthAverage H aggs m.
Proof.
  unfold monthAverage. cbn zeta. rewrite observations_scale.
  rewrite !sum_by_sumQ, !list_fmap_id, sumQ_scale. unfold length_of.
  rewrite !length_fmap. case_decide.
  - unfold Qcdiv. by rewrite Qcmult_assoc.
  - by rewrite Qcmult_0_r.
Qed.

Lemma globalAverage_scale H c aggs :
  globalAverage H (scaleIncome c <$> aggs) = c * globalAverage H aggs.
Proof.
  rewrite !globalAverage_closed.
  assert (monthAverage H (scaleIncome c <$> aggs) <$> calendarMonths
          = Qcmult c <$> (monthAverage H aggs <$> calendarMonths)) as ->.
  { rewrite <- list_fmap_compose. apply Forall_fmap_ext_1, Forall_forall.
    intros m _. apply monthAverage_scale. }
  rewrite sumQ_scale. unfold Qcdiv. by rewrite Qcmult_assoc.
Qed.

Lemma Qcmult_pos_iff c g : 0 < c → (0 < c * g ↔ 0 < g).
Proof.
  unfold Qclt, Qcmult, Q2Qc. cbn [this]. intros Hc.
  rewrite !Qred_correct. rewrite Qred_correct in Hc. split; intros Hg; nra.
Qed.



(** *** The projector: horizon, years, range *)

Lemma futureMonth_next_year H i : futureMonth H (i + 12) = futureMonth H i.
Proof.
  unfold futureMonth. f_equal.
  replace (getMonth H (now H) + 1 - 1 + (i + 12))%Z
    with (getMonth H (now H) + 1 - 1 + i + 1 * 12)%Z by lia.
  apply Z_mod_plus_full.
Qed.

Lemma futureYear_next_year H i : futureYear H (i + 12) = (futureYear H i + 1)%Z.
Proof.
  unfold futureYear.
  replace (getMonth H (now H) + 1 - 1 + (i + 12))%Z
    with (getMonth H (now H) + 1 - 1 + i + 1 * 12)%Z by lia.
  rewrite Z.div_add by lia. lia.
Qed.

Lemma projectIncomeWithSeasonality_lookup H aggs b N g (i : nat) e :
  projectIncomeWithSeasonality H aggs b N g !! i = Some e ↔
  (i < Z.to_nat N)%nat
  ∧ e = {| p_month := monthKeyOf (futureYear H (Z.of_nat (S i)))
                                 (futureMonth H (Z.of_nat (S i)));
           projectedIncome :=
             round (b * default 1 (Map.get (futureMonth H (Z.of_nat (S i)))
                                           (analyzeSeasonality H aggs))
                      * Math_pow g (S i)) |}.
Proof.
  unfold projectIncomeWithSeasonality. rewrite list_lookup_fmap.
  destruct (decide (i < Z.to_nat N)%nat) as [Hi|Hi].
  - rewrite lookup_seq_lt by done. cbn [fmap option_fmap option_map].
    split; [intros [= <-]; by split | by intros [_ ->]].
  - rewrite lookup_seq_ge by lia. cbn [fmap option_fmap option_map].
    split; [done | by intros [? _]].
Qed.

(** X16: the entries do not depend on the horizon: the projection over fewer
    months is the beginning of the projection over more months, and a count
    of months that is not positive gives no entry at all. *)
Theorem projectIncomeWithSeasonality_prefix
    (H : Host) (aggs : list MonthlyAggregate) (baselineIncome : Qc)
    (shorter longer : Z) (growthFactorMonthly : Qc) :
  (shorter ≤ longer)%Z →
  take (Z.to_nat shorter)
    (projectIncomeWithSeasonality H aggs baselineIncome longer growthFactorMonthly)
  = projectIncomeWithSeasonality H aggs baselineIncome shorter growthFactorMonthly
  ∧ ((shorter ≤ 0)%Z →
     projectIncomeWithSeasonality H aggs baselineIncome shorter growthFactorMonthly = []).
Proof.
  intros Hle. unfold projectIncomeWithSeasonality. split.
  - rewrite <- fmap_take, take_seq. do 2 f_equal. lia.
  - intros Hn. by replace (Z.to_nat shorter) with 0%nat by lia.
Qed.

Lemma projectIncomeWithSeasonality_prefix_witness :
  take 3 (projectIncomeWithSeasonality refHost twoMonths (Qc_of_Z 1000) 8 1)
  = projectIncomeWithSeasonality refHost twoMonths (Qc_of_Z 1000) 3 1.
Proof.
  destruct (projectIncomeWithSeasonality_prefix
              refHost twoMonths (Qc_of_Z 1000) 3 8 1) as [Hp _]; [lia | exact Hp].
Defined.

(** X17: without growth the projection repeats from year to year: the entry
    twelve places after another one has the same projected income, and its
    key names the same calendar month of the following year. *)
Theorem projectIncomeWithSeasonality_yearly
    (H : Host) (aggs : list MonthlyAggregate) (baselineIncome : Qc)
    (projectionMonths : Z) (i : nat) (e : ProjectedIncome) :
  let out := projectIncomeWithSeasonality H aggs baselineIncome projectionMonths 1 in
  out !! i = Some e →
  (Z.of_nat i + 12 < projectionMonths)%Z →
  ∃ e', out !! (i + 12)%nat = Some e'
        ∧ projectedIncome e' = projectedIncome e
        ∧ p_month e = monthKeyOf (futureYear H (Z.of_nat (S i)))
                                 (futureMonth H (Z.of_nat (S i)))
        ∧ p_month e' = monthKeyOf (futureYear H (Z.of_nat (S i)) + 1)
                                  (futureMonth H (Z.of_nat (S i))).
Proof.
  intros out [Hi ->]%projectIncomeWithSeasonality_lookup Hlt.
  eexists. split.
  { apply projectIncomeWithSeasonality_lookup. split; [lia | reflexivity]. }
  replace (Z.of_nat (S (i + 12))) with (Z.of_nat (S i) + 12)%Z by lia.
  rewrite futureMonth_next_year, futureYear_next_year.
  cbn [p_month projectedIncome]. unfold Math_pow. rewrite !Qcpower_1. done.
Qed.

Lemma projectIncomeWithSeasonality_yearly_witness :
  ∃ e', projectIncomeWithSeasonality refHost twoMonths (Qc_of_Z 1000) 14 1 !! 12%nat
        = Some e'
        ∧ projectedIncome e' = Qc_of_Z 500.
Proof.
  destruct (projectIncomeWithSeasonality_yearly
              refHost twoMonths (Qc_of_Z 1000) 14 0
              {| p_month := "2024-07"; projectedIncome := Qc_of_Z 500 |})
    as (e' & He' & Hinc & _); [qc_eval | lia |].
  exists e'. by split.
Defined.

(** Every index that the projector reads lies between 0.3 and 2.5. *)
Lemma seasonalityIndex_bounds H aggs m :
  lit 0.3 ≤ default 1 (Map.get m (analyzeSeasonality H aggs)) ≤ lit 2.5.
Proof.
  destruct (decide (aggs = [])) as [->|Hne].
  - destruct (Map.get m (analyzeSeasonality H [])) as [x|] eqn:Hget.
    + apply get_Some_elem in Hget.
      apply list_elem_of_fmap in Hget as (j & [= _ ->] & _).
      cbn [default from_option]. unfold Datatypes.id. split; qc_eval.
    + cbn [default from_option]. split; qc_eval.
  - rewrite analyzeSeasonality_get by done.
    destruct (Map.get m (indices H aggs)) as [x|].
    + cbn [fmap option_fmap option_map default from_option]. unfold Datatypes.id.
      apply dampen_bounds.
    + cbn [fmap option_fmap option_map default from_option]. split; qc_eval.
Qed.





(** *** The aggregator: order of the months, total of the expenses *)

Section sorted_facts.
Context {A : Type} (cmp : A → A → comparison).
Hypothesis cmp_consistent : consistent cmp.

Lemma insert_sorted_sorted x xs :
  StronglySorted (λ a b, cmp a b ≠ Gt) xs →
  StronglySorted (λ a b, cmp a b ≠ Gt) (insert_sorted cmp x xs).
Proof.
  destruct cmp_consistent as [Hasym Htrans].
  induction 1 as [|y ys Hs IH Hall]; cbn [insert_sorted].
  - apply SSorted_cons; [apply SSorted_nil | apply Forall_nil_2].
  - destruct (cmp x y) eqn:Hxy.
    + apply SSorted_cons; [by apply SSorted_cons|].
      apply Forall_cons. split; [by rewrite Hxy|].
      eapply Forall_impl; [exact Hall|]. intros z Hz. cbn beta in *.
      apply (Htrans x y z); [by rewrite Hxy | done].
    + apply SSorted_cons; [by apply SSorted_cons|].
      apply Forall_cons. split; [by rewrite Hxy|].
      eapply Forall_impl; [exact Hall|]. intros z Hz. cbn beta in *.
      apply (Htrans x y z); [by rewrite Hxy | done].
    + apply SSorted_cons; [done|].
      rewrite insert_sorted_Permutation. apply Forall_cons. split; [|done].
      by apply Hasym.
Qed.

Lemma sort_sorted xs : StronglySorted (λ a b, cmp a b ≠ Gt) (sort cmp xs).
Proof.
  induction xs as [|x xs IH]; cbn [sort foldr].
  - apply SSorted_nil.
  - by apply insert_sorted_sorted.
Qed.
End sorted_facts.

Lemma StronglySorted_fmap_2 {A B} (R : B → B → Prop) (f : A → B) xs :
  StronglySorted (λ a b, R (f a) (f b)) xs → StronglySorted R (f <$> xs).
Proof.
  induction 1 as [|x xs Hs IH Hall]; [apply SSorted_nil|].
  rewrite fmap_cons. apply SSorted_cons; [done|]. by apply Forall_fmap.
Qed.

Lemma StronglySorted_impl {A} (R R' : A → A → Prop) xs :
  (∀ a b, a ∈ xs → b ∈ xs → a ≠ b → R a b → R' a b) →
  NoDup xs →
  StronglySorted R xs → StronglySorted R' xs.
Proof.
  intros Himp Hnd Hs. induction Hs as [|x xs Hs IH Hall]; [apply SSorted_nil|].
  apply NoDup_cons in Hnd as [Hx Hnd]. apply SSorted_cons.
  - apply IH; [|done]. intros a b Ha Hb. apply Himp; apply elem_of_cons; by right.
  - apply Forall_forall. intros y Hy. apply Himp.
    + apply elem_of_cons; by left.
    + apply elem_of_cons; by right.
    + by intros ->.
    + by apply (proj1 (Forall_forall _ _) Hall).
Qed.

(** The order of strings by code units is consistent. *)
Lemma ascii_compare_cases a b :
  match Ascii.compare a b with
  | Eq => a = b
  | Lt => (N_of_ascii a < N_of_ascii b)%N
  | Gt => (N_of_ascii b < N_of_ascii a)%N
  end.
Proof.
  unfold Ascii.compare.
  destruct (N.compare_spec (N_of_ascii a) (N_of_ascii b)) as [E|E|E]; try done.
  rewrite <- (ascii_N_embedding a), <- (ascii_N_embedding b). by rewrite E.
Qed.

Lemma string_compare_refl a : String.compare a a = Eq.
Proof.
  induction a as [|c a IH]; [done|]. cbn.
  pose proof (ascii_compare_cases c c) as Hc.
  destruct (Ascii.compare c c); [done | lia | lia].
Qed.

Lemma string_compare_trans a b c :
  String.compare a b ≠ Gt → String.compare b c ≠ Gt → String.compare a c ≠ Gt.
Proof.
  revert b c. induction a as [|x a IH]; intros [|y b] [|z c]; cbn; try done.
  pose proof (ascii_compare_cases x y) as Hxy.
  pose proof (ascii_compare_cases y z) as Hyz.
  pose proof (ascii_compare_cases x z) as Hxz.
  destruct (Ascii.compare x y), (Ascii.compare y z), (Ascii.compare x z);
    try done; subst; try lia; try (intros; by eapply IH).
Qed.

Lemma string_compare_consistent : consistent String.compare.
Proof.
  split.
  - intros x y Hxy. rewrite String.compare_antisym, Hxy. done.
  - apply string_compare_trans.
Qed.

(** X20: when the host's [localeCompare] orders the month keys consistently,
    the aggregates come out in ascending order of their month keys: no
    aggregate is followed, at any distance, by one whose key compares lower;
    and where only identical keys compare equal, every aggregate's key
    compares strictly lower than the keys of all that follow. *)
Theorem buildMonthlyAggregates_sorted
    (H : Host) (invoices : list InvoiceLine) (expenses : list ExpenseLine) :
  consistent (localeCompare H) →
  StronglySorted (λ a b, localeCompare H a b ≠ Gt)
    (month <$> buildMonthlyAggregates H invoices expenses)
  ∧ ((∀ a b, localeCompare H a b = Eq → a = b) →
     StronglySorted (λ a b, localeCompare H a b = Lt)
       (month <$> buildMonthlyAggregates H invoices expenses)).
Proof.
  intros Hc.
  assert (StronglySorted (λ a b, localeCompare H a b ≠ Gt)
            (month <$> buildMonthlyAggregates H invoices expenses)) as Hs.
  { unfold buildMonthlyAggregates. rewrite <- list_fmap_compose.
    apply StronglySorted_fmap_2.
    apply (sort_sorted (λ a b : string * MonthEntry, localeCompare H a.1 b.1)).
    destruct Hc as [Hasym Htrans]. split.
    - intros x y. apply Hasym.
    - intros x y z. apply Htrans. }
  split; [done|]. intros Heq.
  eapply StronglySorted_impl; [| |exact Hs].
  - intros a b _ _ Hne Hab. destruct (localeCompare H a b) eqn:E; [|done|done].
    by apply Heq in E.
  - rewrite buildMonthlyAggregates_months. apply monthlyMap_NoDup.
Qed.

Lemma buildMonthlyAggregates_sorted_witness :
  StronglySorted (λ a b, localeCompare refHost a b ≠ Gt)
    (month <$> buildMonthlyAggregates refHost sevenMonths undatedExpense).
Proof.
  destruct (buildMonthlyAggregates_sorted refHost sevenMonths undatedExpense)
    as [Hs _]; [apply string_compare_consistent | exact Hs].
Defined.

Lemma this_plus (x y : Qc) : (this (x + y) == this x + this y)%Q.
Proof. unfold Qcplus, Q2Qc. cbn [this]. apply Qred_correct. Qed.

Lemma this_minus (x y : Qc) : (this (x - y) == this x - this y)%Q.
Proof.
  unfold Qcminus, Qcplus, Qcopp, Q2Qc. cbn [this]. rewrite !Qred_correct.
  reflexivity.
Qed.

Lemma this_lit_half_cent : (this (lit 0.005) == 5 # 1000)%Q.
Proof. by vm_compute. Qed.

Lemma this_lit_cent : (this (lit 0.01) == 1 # 100)%Q.
Proof. by vm_compute. Qed.

(** Rounding a sum and summing the rounded parts differ by a cent at most. *)
Lemma round_plus_bounds x y :
  round x + round y - lit 0.01 ≤ round (x + y)
  ∧ round (x + y) ≤ round x + round y + lit 0.01.
Proof.
  pose proof (round_bounds x) as [Hx1 Hx2].
  pose proof (round_bounds y) as [Hy1 Hy2].
  pose proof (round_bounds (x + y)) as [Hs1 Hs2].
  revert Hx1 Hx2 Hy1 Hy2 Hs1 Hs2. rewrite !round_is_hundredths.
  generalize (Qfloor ((x * Qc_of_Z 100)%Qc + lit 0.5)%Q).
  generalize (Qfloor ((y * Qc_of_Z 100)%Qc + lit 0.5)%Q).
  generalize (Qfloor (((x + y) * Qc_of_Z 100)%Qc + lit 0.5)%Q).
  intros c b a. unfold Qclt, Qcle.
  rewrite ?this_plus, ?this_minus, ?this_div_hundred, ?this_lit_half_cent,
    ?this_lit_cent.
  rewrite ?this_plus, ?this_minus, ?this_div_hundred, ?this_lit_half_cent,
    ?this_lit_cent.
  intros Hx1 Hx2 Hy1 Hy2 Hs1 Hs2.
  assert (-1 ≤ c - a - b ≤ 1)%Z as [Hlo Hhi].
  { split.
    - destruct (Z_le_gt_dec (-1) (c - a - b)) as [Hok|Hbad]; [done | exfalso].
      assert (c - a - b ≤ -2)%Z as Hq by lia.
      rewrite Zle_Qle in Hq. unfold Z.sub in Hq.
      rewrite !inject_Z_plus, !inject_Z_opp in Hq.
      change (inject_Z (-2)) with (-2 # 1)%Q in Hq. lra.
    - destruct (Z_le_gt_dec (c - a - b) 1) as [Hok|Hbad]; [done | exfalso].
      assert (2 ≤ c - a - b)%Z as Hq by lia.
      rewrite Zle_Qle in Hq. unfold Z.sub in Hq.
      rewrite !inject_Z_plus, !inject_Z_opp in Hq.
      change (inject_Z 2) with (2 # 1)%Q in Hq. lra. }
  rewrite Zle_Qle in Hlo, Hhi. unfold Z.sub in Hlo, Hhi.
  rewrite !inject_Z_plus, !inject_Z_opp in Hlo, Hhi.
  change (inject_Z (-1)) with (-1 # 1)%Q in Hlo.
  change (inject_Z 1) with (1 # 1)%Q in Hhi.
  split; lra.
Qed.

Example total_is_not_the_sum_of_its_parts :
  buildMonthlyAggregates refHost [] halfCentExpenses
  = [ {| month := "2024-01"; income := 0; fixedExpenses := lit 0.01;
         variableExpenses := lit 0.01; totalExpenses := lit 0.01 |} ].
Proof. qc_eval. Qed.

(** X21: in every aggregate the total of the expenses is within one cent of
    fixed plus variable expenses, the three figures being rounded each on its
    own; when every expense amount is a whole number of hundredths, the total
    is exactly their sum. *)
Theorem buildMonthlyAggregates_totalExpenses
    (H : Host) (invoices : list InvoiceLine) (expenses : list ExpenseLine)
    (a : MonthlyAggregate) :
  a ∈ buildMonthlyAggregates H invoices expenses →
  (fixedExpenses a + variableExpenses a - lit 0.01 ≤ totalExpenses a
   ∧ totalExpenses a ≤ fixedExpenses a + variableExpenses a + lit 0.01)
  ∧ (Forall (λ e, twoDecimals (e_totalAmount e)) expenses →
     totalExpenses a = fixedExpenses a + variableExpenses a).
Proof.
  intros (e & Hin & ->)%buildMonthlyAggregates_elem.
  cbn [toAggregate fixedExpenses variableExpenses totalExpenses fst snd].
  split; [apply round_plus_bounds|].
  intros Hall. apply monthlyMap_elem in Hin. subst e.
  cbn [m_fixedExpenses m_variableExpenses].
  pose proof (twoDecimals_expensesOf true (month a) expenses Hall) as Hf.
  pose proof (twoDecimals_expensesOf false (month a) expenses Hall) as Hv.
  pose proof (twoDecimals_plus _ _ Hf Hv) as Hfv.
  unfold twoDecimals in Hf, Hv, Hfv. by rewrite Hf, Hv, Hfv.
Qed.

Lemma buildMonthlyAggregates_totalExpenses_witness :
  let a := {| month := "2024-01"; income := 0; fixedExpenses := lit 0.01;
              variableExpenses := lit 0.01; totalExpenses := lit 0.01 |} in
  fixedExpenses a + variableExpenses a - lit 0.01 ≤ totalExpenses a.
Proof.
  intros a.
  destruct (buildMonthlyAggregates_totalExpenses refHost [] halfCentExpenses a)
    as [[Hlo _] _]; [|exact Hlo].
  apply (bool_decide_unpack _). by vm_compute.
Defined.

(** *** Sums over a [Map] that a loop fills *)

Lemma sumQ_map_set {K V} `{EqDecision K} (f : V → Qc) (d : V) k v (m : list (K * V)) :
  f d = 0 →
  sumQ ((λ kv, f kv.2) <$> Map.set k v m)
  = sumQ ((λ kv, f kv.2) <$> m) + (f v - f (default d (Map.get k m))).
Proof.
  intros Hf. induction m as [|[k' v'] m IH]; cbn [Map.set Map.get].
  - cbn [fmap list_fmap sumQ foldr snd default from_option]. rewrite Hf. ring.
  - destruct (decide (k = k')) as [->|Hne].
    + rewrite !fmap_cons, !sumQ_cons. cbn [snd default from_option].
      unfold Datatypes.id. ring.
    + rewrite !fmap_cons, !sumQ_cons, IH. cbn [snd]. ring.
Qed.

Lemma sumQ_loop {M X} (S : M → Qc) (g : M → X → M) (δ : X → Qc) xs m :
  (∀ m' x, S (g m' x) = S m' + δ x) →
  S (foldl g m xs) = S m + sumQ (δ <$> xs).
Proof.
  intros Hg. revert m. induction xs as [|x xs IH]; intros m; cbn [foldl].
  - rewrite fmap_nil. change (sumQ []) with (Q2Qc 0). by rewrite Qcplus_0_r.
  - by rewrite IH, Hg, fmap_cons, sumQ_cons, Qcplus_assoc.
Qed.

Lemma StronglySorted_weaken {A} (R R' : A → A → Prop) xs :
  (∀ a b, R a b → R' a b) → StronglySorted R xs → StronglySorted R' xs.
Proof.
  intros Himp. induction 1 as [|x xs Hs IH Hall]; [apply SSorted_nil|].
  apply SSorted_cons; [done|]. eapply Forall_impl; [exact Hall|]. apply Himp.
Qed.

(** *** The expenses by category *)

Lemma categoryMap_get c expenses (m : list (ExpenseCategory * Qc)) :
  default 0
    (Map.get c
       (foldl
          (λ map expense,
             let key := ex_category expense in
             Map.set key (default 0 (Map.get key map) + ex_totalAmount expense) map)
          m expenses))
  = default 0 (Map.get c m)
    + sumQ (ex_totalAmount <$> filter (λ e, ex_category e = c) expenses).
Proof.
  revert m. induction expenses as [|e expenses IH]; intros m; cbn [foldl].
  - rewrite filter_nil, fmap_nil. change (sumQ []) with (Q2Qc 0).
    by rewrite Qcplus_0_r.
  - rewrite IH. cbn zeta. rewrite filter_cons.
    destruct (decide (ex_category e = c)) as [<-|Hne].
    + rewrite get_set_eq, fmap_cons, sumQ_cons. cbn [default from_option].
      unfold Datatypes.id. ring.
    + rewrite get_set_ne by done. done.
Qed.

Lemma byTotalDescending_consistent : consistent Reportes.byTotalDescending.
Proof.
  unfold Reportes.byTotalDescending. split.
  - intros x y Hxy%Qcgt_alt. apply Qcle_alt, Qclt_le_weak, Hxy.
  - intros x y z Hxy%Qcle_alt Hyz%Qcle_alt. apply Qcle_alt.
    by apply Qcle_trans with (Reportes.c_total y).
Qed.

(** X22: the list of expenses by category names every category that has an
    expense, once; the total of a category is the sum of the amounts of its
    expenses, without rounding; the list runs from the highest total to the
    lowest; and its totals add up to the sum of all expense amounts. *)
Theorem buildExpensesByCategory_totals (expenses : list ExpenseRecord) :
  let out := Reportes.buildExpensesByCategory expenses in
  NoDup (Reportes.c_category <$> out)
  ∧ (∀ c, c ∈ Reportes.c_category <$> out ↔ c ∈ ex_category <$> expenses)
  ∧ (∀ r, r ∈ out →
       Reportes.c_total r
       = sumQ (ex_totalAmount <$>
                 filter (λ e, ex_category e = Reportes.c_category r) expenses))
  ∧ StronglySorted (λ a b, Reportes.c_total b ≤ Reportes.c_total a) out
  ∧ sumQ (Reportes.c_total <$> out) = sumQ (ex_totalAmount <$> expenses).
Proof.
  intros out.
  set (step := λ (map : list (ExpenseCategory * Qc)) (expense : ExpenseRecord),
         let key := ex_category expense in
         Map.set key (default 0 (Map.get key map) + ex_totalAmount expense) map).
  assert (∀ m x, ∃ v, step m x = Map.set (ex_category x) v m) as Hsets
    by (intros m x; by eexists).
  assert (NoDup (Map.keys (Reportes.categoryMap expenses))) as Hnd.
  { apply (NoDup_foldl_keyed step ex_category Hsets). apply NoDup_nil_2. }
  assert (Reportes.c_category <$> out ≡ₚ Map.keys (Reportes.categoryMap expenses))
    as Hcats.
  { unfold out, Reportes.buildExpensesByCategory. rewrite sort_Permutation.
    unfold Map.keys. by rewrite <- list_fmap_compose. }
  split; [by rewrite Hcats|]. split; [|split; [|split]].
  - intros c. rewrite Hcats.
    change (Reportes.categoryMap expenses) with (foldl step [] expenses).
    rewrite (keys_foldl_keyed step ex_category Hsets). cbn [Map.keys fmap list_fmap].
    rewrite elem_of_nil. tauto.
  - intros r Hr. unfold out, Reportes.buildExpensesByCategory in Hr.
    rewrite sort_Permutation in Hr.
    apply list_elem_of_fmap in Hr as ([c v] & -> & Hin).
    cbn [Reportes.c_total Reportes.c_category fst snd].
    apply elem_get in Hin; [|done].
    pose proof (categoryMap_get c expenses []) as Hget.
    fold step in Hget. change (foldl step [] expenses)
      with (Reportes.categoryMap expenses) in Hget.
    rewrite Hin in Hget. cbn [default from_option Map.get] in Hget.
    unfold Datatypes.id in Hget. by rewrite Hget, Qcplus_0_l.
  - apply (StronglySorted_weaken (λ a b, Reportes.byTotalDescending a b ≠ Gt)).
    + intros a b Hab. by apply Qcle_alt.
    + apply sort_sorted, byTotalDescending_consistent.
  - unfold out, Reportes.buildExpensesByCategory. rewrite sort_Permutation.
    rewrite <- list_fmap_compose.
    change (Reportes.categoryMap expenses) with (foldl step [] expenses).
    rewrite (sumQ_loop (λ m : list (ExpenseCategory * Qc), sumQ ((λ kv, kv.2) <$> m))
               step ex_totalAmount).
    + cbn [fmap list_fmap]. change (sumQ []) with (Q2Qc 0). by rewrite Qcplus_0_l.
    + intros m x. unfold step. cbn zeta.
      rewrite (sumQ_map_set (λ v : Qc, v) 0) by done. ring.
Qed.

(** *** The monthly statistics of the dashboard *)

Lemma forEach_spec {S X} (f : S → X → option S) (g : S → X → S) (ok : X → Prop)
    `{!∀ x, Decision (ok x)} :
  (∀ s x, ok x → f s x = Some (g s x)) →
  (∀ s x, ¬ ok x → f s x = None) →
  ∀ xs s, Dashboard.forEach f s xs
          = if decide (Forall ok xs) then Some (foldl g s xs) else None.
Proof.
  intros Hok Hbad. induction xs as [|x xs IH]; intros s; cbn [Dashboard.forEach foldl].
  - by rewrite decide_True by apply Forall_nil_2.
  - destruct (decide (ok x)) as [Hx|Hx].
    + rewrite Hok by done. cbn [mbind option_bind]. rewrite IH.
      destruct (decide (Forall ok xs)) as [Hxs|Hxs].
      * by rewrite decide_True by by apply Forall_cons.
      * rewrite decide_False; [done|]. by intros [_ ?]%Forall_cons.
    + rewrite Hbad by done. cbn [mbind option_bind].
      rewrite decide_False; [done|]. by intros [? _]%Forall_cons.
Qed.

Lemma formatMonthKey_None H d :
  Dashboard.formatMonthKey H d = None ↔ asLocalDate H d = None.
Proof.
  unfold Dashboard.formatMonthKey. destruct (asLocalDate H d); cbn [mbind option_bind];
    by split.
Qed.

Lemma monthKeyOr_Some H d k :
  is_Some (Dashboard.formatMonthKey H d) →
  monthKeyOr H d = k ↔ Dashboard.formatMonthKey H d = Some k.
Proof.
  intros [k' Hk']. unfold monthKeyOr. rewrite Hk'. cbn [default from_option].
  unfold Datatypes.id. split; [by intros -> | by intros [= ->]].
Qed.

Lemma addIncome_step H m i :
  is_Some (Dashboard.formatMonthKey H (i_issueDate i)) →
  Dashboard.addIncome H m i = Some (incomeStep H m i).
Proof.
  intros [k Hk]. unfold Dashboard.addIncome, incomeStep, monthKeyOr, flowAt.
  rewrite Hk. reflexivity.
Qed.

Lemma addIncome_throws H m i :
  ¬ is_Some (Dashboard.formatMonthKey H (i_issueDate i)) →
  Dashboard.addIncome H m i = None.
Proof.
  intros Hk. unfold Dashboard.addIncome.
  destruct (Dashboard.formatMonthKey H (i_issueDate i)); [|done].
  exfalso. apply Hk. by eexists.
Qed.

Lemma addOutgo_step H m e :
  is_Some (Dashboard.formatMonthKey H (e_issueDate e)) →
  Dashboard.addOutgo H m e = Some (outgoStep H m e).
Proof.
  intros [k Hk]. unfold Dashboard.addOutgo, outgoStep, monthKeyOr, flowAt.
  rewrite Hk. reflexivity.
Qed.

Lemma addOutgo_throws H m e :
  ¬ is_Some (Dashboard.formatMonthKey H (e_issueDate e)) →
  Dashboard.addOutgo H m e = None.
Proof.
  intros Hk. unfold Dashboard.addOutgo.
  destruct (Dashboard.formatMonthKey H (e_issueDate e)); [|done].
  exfalso. apply Hk. by eexists.
Qed.

(** The function as a whole: it throws when a date has no key, and otherwise
    returns the points of the sorted map. *)
Lemma buildMonthlyStats_closed H invoices expenses :
  Dashboard.buildMonthlyStats H invoices expenses
  = if decide (Forall (λ i, is_Some (Dashboard.formatMonthKey H (i_issueDate i))) invoices
               ∧ Forall (λ e, is_Some (Dashboard.formatMonthKey H (e_issueDate e))) expenses)
    then Some (Dashboard.points 0
                 (sort (λ a b, localeCompare H a.1 b.1) (flows H invoices expenses)))
    else None.
Proof.
  unfold Dashboard.buildMonthlyStats.
  rewrite (forEach_spec (Dashboard.addIncome H) (incomeStep H)
             (λ i, is_Some (Dashboard.formatMonthKey H (i_issueDate i)))
             (addIncome_step H) (addIncome_throws H)).
  destruct (decide (Forall _ invoices)) as [Hi|Hi]; cbn [mbind option_bind].
  - rewrite (forEach_spec (Dashboard.addOutgo H) (outgoStep H)
               (λ e, is_Some (Dashboard.formatMonthKey H (e_issueDate e)))
               (addOutgo_step H) (addOutgo_throws H)).
    destruct (decide (Forall _ expenses)) as [He|He]; cbn [mbind option_bind].
    + by rewrite decide_True.
    + rewrite decide_False; [done|]. by intros [_ ?].
  - rewrite decide_False; [done|]. by intros [? _].
Qed.

(** X23: [buildMonthlyStats] throws exactly when the issue date of one of
    the invoices or expenses is one that [asLocalDate] turns into an Invalid
    Date. *)
Theorem buildMonthlyStats_fails_iff
    (H : Host) (invoices : list InvoiceLine) (expenses : list ExpenseLine) :
  Dashboard.buildMonthlyStats H invoices expenses = None ↔
  ∃ d, d ∈ issueDates invoices expenses ∧ asLocalDate H d = None.
Proof.
  rewrite buildMonthlyStats_closed. unfold issueDates. split.
  - case_decide as Hall; [done|]. intros _.
    apply not_and_l in Hall as [Hi|He].
    + apply not_Forall_Exists in Hi; [|apply _].
      apply Exists_exists in Hi as (i & Hin & Hno). exists (i_issueDate i). split.
      * apply elem_of_app. left. by apply list_elem_of_fmap_2.
      * apply formatMonthKey_None. by apply eq_None_not_Some.
    + apply not_Forall_Exists in He; [|apply _].
      apply Exists_exists in He as (e & Hin & Hno). exists (e_issueDate e). split.
      * apply elem_of_app. right. by apply list_elem_of_fmap_2.
      * apply formatMonthKey_None. by apply eq_None_not_Some.
  - intros (d & Hd & Hnone). apply formatMonthKey_None in Hnone.
    rewrite decide_False; [done|]. intros [Hi He].
    apply elem_of_app in Hd as [Hd|Hd].
    + apply list_elem_of_fmap in Hd as (i & -> & Hin).
      apply (proj1 (Forall_forall _ _) Hi) in Hin. rewrite Hnone in Hin.
      by destruct Hin.
    + apply list_elem_of_fmap in Hd as (e & -> & Hin).
      apply (proj1 (Forall_forall _ _) He) in Hin. rewrite Hnone in Hin.
      by destruct Hin.
Qed.

Example buildMonthlyStats_misdated :
  Dashboard.buildMonthlyStats refHost misdatedInvoice [] = None.
Proof. qc_eval. Qed.

Lemma flowAt_set k k' v m :
  flowAt k (Map.set k' v m) = if decide (k = k') then v else flowAt k m.
Proof. unfold flowAt. rewrite get_set. by case_decide. Qed.

Lemma foldl_incomeStep_flow H k invoices m :
  flowAt k (foldl (incomeStep H) m invoices)
  = {| Dashboard.f_income :=
         Dashboard.f_income (flowAt k m)
         + sumQ (i_total <$> filter (λ i, monthKeyOr H (i_issueDate i) = k) invoices);
       Dashboard.f_expense := Dashboard.f_expense (flowAt k m) |}.
Proof.
  revert m. induction invoices as [|i invoices IH]; intros m; cbn [foldl].
  - rewrite filter_nil, fmap_nil. change (sumQ []) with (Q2Qc 0).
    rewrite Qcplus_0_r. by destruct (flowAt k m).
  - rewrite IH. unfold incomeStep at 1 2. cbn zeta. rewrite flowAt_set, filter_cons.
    destruct (decide (monthKeyOr H (i_issueDate i) = k)) as [Hk|Hk].
    + rewrite decide_True by done. rewrite Hk, fmap_cons, sumQ_cons.
      cbn [Dashboard.f_income Dashboard.f_expense]. by rewrite Qcplus_assoc.
    + by rewrite decide_False by done.
Qed.

Lemma foldl_outgoStep_flow H k expenses m :
  flowAt k (foldl (outgoStep H) m expenses)
  = {| Dashboard.f_income := Dashboard.f_income (flowAt k m);
       Dashboard.f_expense :=
         Dashboard.f_expense (flowAt k m)
         + sumQ (e_totalAmount <$>
                   filter (λ e, monthKeyOr H (e_issueDate e) = k) expenses) |}.
Proof.
  revert m. induction expenses as [|e expenses IH]; intros m; cbn [foldl].
  - rewrite filter_nil, fmap_nil. change (sumQ []) with (Q2Qc 0).
    rewrite Qcplus_0_r. by destruct (flowAt k m).
  - rewrite IH. unfold outgoStep at 1 2. cbn zeta. rewrite flowAt_set, filter_cons.
    destruct (decide (monthKeyOr H (e_issueDate e) = k)) as [Hk|Hk].
    + rewrite decide_True by done. rewrite Hk, fmap_cons, sumQ_cons.
      cbn [Dashboard.f_income Dashboard.f_expense]. by rewrite Qcplus_assoc.
    + by rewrite decide_False by done.
Qed.

Lemma flows_flow H k invoices expenses :
  flowAt k (flows H invoices expenses)
  = {| Dashboard.f_income :=
         sumQ (i_total <$> filter (λ i, monthKeyOr H (i_issueDate i) = k) invoices);
       Dashboard.f_expense :=
         sumQ (e_totalAmount <$>
                 filter (λ e, monthKeyOr H (e_issueDate e) = k) expenses) |}.
Proof.
  unfold flows. rewrite foldl_outgoStep_flow, foldl_incomeStep_flow.
  unfold flowAt at 1 2. cbn [Map.get default from_option Dashboard.noFlow
    Dashboard.f_income Dashboard.f_expense].
  by rewrite !Qcplus_0_l.
Qed.

Lemma incomeStep_sets H m i : ∃ v, incomeStep H m i = Map.set (monthKeyOr H (i_issueDate i)) v m.
Proof. by eexists. Qed.

Lemma outgoStep_sets H m e : ∃ v, outgoStep H m e = Map.set (monthKeyOr H (e_issueDate e)) v m.
Proof. by eexists. Qed.

Lemma flows_NoDup H invoices expenses : NoDup (Map.keys (flows H invoices expenses)).
Proof.
  unfold flows.
  apply (NoDup_foldl_keyed (outgoStep H) (λ e, monthKeyOr H (e_issueDate e))
           (outgoStep_sets H)).
  apply (NoDup_foldl_keyed (incomeStep H) (λ i, monthKeyOr H (i_issueDate i))
           (incomeStep_sets H)).
  apply NoDup_nil_2.
Qed.

Lemma flows_income_sum H invoices expenses :
  sumQ ((λ kv, Dashboard.f_income kv.2) <$> flows H invoices expenses)
  = sumQ (i_total <$> invoices).
Proof.
  unfold flows.
  rewrite (sumQ_loop (λ m : list (string * Dashboard.Flow),
                        sumQ ((λ kv, Dashboard.f_income kv.2) <$> m))
             (outgoStep H) (λ _, 0)).
  - rewrite (sumQ_loop (λ m : list (string * Dashboard.Flow),
                          sumQ ((λ kv, Dashboard.f_income kv.2) <$> m))
               (incomeStep H) i_total).
    + rewrite fmap_nil, sumQ_zeros. change (sumQ []) with (Q2Qc 0).
      by rewrite Qcplus_0_l, Qcplus_0_r.
    + intros m i. unfold incomeStep. cbn zeta.
      rewrite (sumQ_map_set Dashboard.f_income Dashboard.noFlow) by done.
      cbn [Dashboard.f_income]. unfold flowAt. ring.
  - intros m e. unfold outgoStep. cbn zeta.
    rewrite (sumQ_map_set Dashboard.f_income Dashboard.noFlow) by done.
    cbn [Dashboard.f_income]. unfold flowAt. ring.
Qed.

Lemma flows_expense_sum H invoices expenses :
  sumQ ((λ kv, Dashboard.f_expense kv.2) <$> flows H invoices expenses)
  = sumQ (e_totalAmount <$> expenses).
Proof.
  unfold flows.
  rewrite (sumQ_loop (λ m : list (string * Dashboard.Flow),
                        sumQ ((λ kv, Dashboard.f_expense kv.2) <$> m))
             (outgoStep H) e_totalAmount).
  - rewrite (sumQ_loop (λ m : list (string * Dashboard.Flow),
                          sumQ ((λ kv, Dashboard.f_expense kv.2) <$> m))
               (incomeStep H) (λ _, 0)).
    + rewrite fmap_nil, sumQ_zeros. change (sumQ []) with (Q2Qc 0).
      by rewrite !Qcplus_0_l.
    + intros m i. unfold incomeStep. cbn zeta.
      rewrite (sumQ_map_set Dashboard.f_expense Dashboard.noFlow) by done.
      cbn [Dashboard.f_expense]. unfold flowAt. ring.
  - intros m e. unfold outgoStep. cbn zeta.
    rewrite (sumQ_map_set Dashboard.f_expense Dashboard.noFlow) by done.
    cbn [Dashboard.f_expense]. unfold flowAt. ring.
Qed.

Lemma points_fields c es :
  Dashboard.mp_key <$> Dashboard.points c es = es.*1
  ∧ Dashboard.mp_income <$> Dashboard.points c es
    = (λ kv, Dashboard.f_income kv.2) <$> es
  ∧ Dashboard.mp_expense <$> Dashboard.points c es
    = (λ kv, Dashboard.f_expense kv.2) <$> es
  ∧ Dashboard.mp_net <$> Dashboard.points c es
    = (λ kv, Dashboard.f_income kv.2 - Dashboard.f_expense kv.2) <$> es.
Proof.
  revert c. induction es as [|[k v] es IH]; intros c; [done|].
  cbn [Dashboard.points]. cbn zeta. rewrite !fmap_cons.
  destruct (IH (c + (Dashboard.f_income v - Dashboard.f_expense v)))
    as (-> & -> & -> & ->).
  done.
Qed.

Lemma points_elem c es p :
  p ∈ Dashboard.points c es →
  ∃ v, (Dashboard.mp_key p, v) ∈ es
       ∧ Dashboard.mp_income p = Dashboard.f_income v
       ∧ Dashboard.mp_expense p = Dashboard.f_expense v
       ∧ Dashboard.mp_net p = Dashboard.mp_income p - Dashboard.mp_expense p.
Proof.
  revert c. induction es as [|[k v] es IH]; intros c; cbn [Dashboard.points].
  - by intros ?%elem_of_nil.
  - cbn zeta. intros [->|Hp]%elem_of_cons.
    + exists v. cbn. split; [apply elem_of_cons; by left | done].
    + destruct (IH _ Hp) as (v' & Hin & Hrest). exists v'.
      split; [apply elem_of_cons; by right | done].
Qed.

Lemma points_cashflow c es i p :
  Dashboard.points c es !! i = Some p →
  Dashboard.mp_cashflow p
  = c + sumQ (Dashboard.mp_net <$> take (S i) (Dashboard.points c es)).
Proof.
  revert c i. induction es as [|[k v] es IH]; intros c i; cbn [Dashboard.points].
  - by rewrite lookup_nil.
  - cbn zeta. destruct i as [|i].
    + intros [= <-]. rewrite firstn_cons, firstn_O, fmap_cons, fmap_nil, sumQ_cons.
      change (sumQ []) with (Q2Qc 0).
      cbn [Dashboard.mp_cashflow Dashboard.mp_net]. ring.
    + rewrite lookup_cons. intros Hp. apply IH in Hp. rewrite Hp.
      rewrite firstn_cons, fmap_cons, sumQ_cons. cbn [Dashboard.mp_net]. ring.
Qed.

Lemma sumQ_minus {A} (f g : A → Qc) xs :
  sumQ ((λ x, f x - g x) <$> xs) = sumQ (f <$> xs) - sumQ (g <$> xs).
Proof.
  induction xs as [|x xs IH]; [rewrite !fmap_nil; change (sumQ []) with (Q2Qc 0); ring|].
  rewrite !fmap_cons, !sumQ_cons, IH. ring.
Qed.

(** What the function returns when it returns. *)
Lemma buildMonthlyStats_inv H invoices expenses stats :
  Dashboard.buildMonthlyStats H invoices expenses = Some stats →
  Forall (λ i, is_Some (Dashboard.formatMonthKey H (i_issueDate i))) invoices
  ∧ Forall (λ e, is_Some (Dashboard.formatMonthKey H (e_issueDate e))) expenses
  ∧ stats = Dashboard.points 0
              (sort (λ a b, localeCompare H a.1 b.1) (flows H invoices expenses)).
Proof.
  rewrite buildMonthlyStats_closed. case_decide as Hall; [|done].
  intros [= <-]. by destruct Hall.
Qed.

Lemma buildMonthlyStats_net_sum H invoices expenses stats :
  Dashboard.buildMonthlyStats H invoices expenses = Some stats →
  sumQ (Dashboard.mp_net <$> stats)
  = sumQ (i_total <$> invoices) - sumQ (e_totalAmount <$> expenses).
Proof.
  intros (_ & _ & ->)%buildMonthlyStats_inv.
  destruct (points_fields 0 (sort (λ a b, localeCompare H a.1 b.1)
                               (flows H invoices expenses))) as (_ & _ & _ & ->).
  rewrite sort_Permutation.
  rewrite (sumQ_minus (λ kv : string * Dashboard.Flow, Dashboard.f_income kv.2)
             (λ kv, Dashboard.f_expense kv.2)).
  by rewrite flows_income_sum, flows_expense_sum.
Qed.

(** X24: when [buildMonthlyStats] returns, every month key occurs once; the
    income and the expense of a month are the sums, without rounding, of the
    invoices and of the expenses that carry its key, and its net is their
    difference; the cash flow of a month is the running total of the nets up
    to that month, so the last one is all income minus all expenses; and with
    a [localeCompare] that orders the keys consistently the months
    ascend. *)
Theorem buildMonthlyStats_cashflow
    (H : Host) (invoices : list InvoiceLine) (expenses : list ExpenseLine)
    (stats : list Dashboard.MonthlyPoint) :
  Dashboard.buildMonthlyStats H invoices expenses = Some stats →
  NoDup (Dashboard.mp_key <$> stats)
  ∧ (∀ p, p ∈ stats →
       Dashboard.mp_income p
       = sumQ (i_total <$>
                 filter (λ i, Dashboard.formatMonthKey H (i_issueDate i)
                              = Some (Dashboard.mp_key p)) invoices)
       ∧ Dashboard.mp_expense p
         = sumQ (e_totalAmount <$>
                   filter (λ e, Dashboard.formatMonthKey H (e_issueDate e)
                                = Some (Dashboard.mp_key p)) expenses)
       ∧ Dashboard.mp_net p = Dashboard.mp_income p - Dashboard.mp_expense p)
  ∧ (∀ i p, stats !! i = Some p →
       Dashboard.mp_cashflow p = sumQ (Dashboard.mp_net <$> take (S i) stats))
  ∧ (∀ p, last stats = Some p →
       Dashboard.mp_cashflow p
       = sumQ (i_total <$> invoices) - sumQ (e_totalAmount <$> expenses))
  ∧ (consistent (localeCompare H) →
     StronglySorted (λ a b, localeCompare H a b ≠ Gt) (Dashboard.mp_key <$> stats)).
Proof.
  intros Hstats. pose proof (buildMonthlyStats_net_sum _ _ _ _ Hstats) as Hnet.
  apply buildMonthlyStats_inv in Hstats as (Hi & He & Hstats).
  set (sorted := sort (λ a b : string * Dashboard.Flow, localeCompare H a.1 b.1)
                   (flows H invoices expenses)) in *.
  assert (sorted ≡ₚ flows H invoices expenses) as Hperm by apply sort_Permutation.
  destruct (points_fields 0 sorted) as (Hkeys & _).
  assert (∀ i p, stats !! i = Some p →
            Dashboard.mp_cashflow p = sumQ (Dashboard.mp_net <$> take (S i) stats))
    as Hrun.
  { intros i p Hp. rewrite Hstats in Hp. apply points_cashflow in Hp.
    by rewrite Hp, Qcplus_0_l, Hstats. }
  split; [|split; [|split; [|split]]].
  - rewrite Hstats, Hkeys, Hperm. apply flows_NoDup.
  - intros p Hp. rewrite Hstats in Hp.
    apply points_elem in Hp as (v & Hin & Hinc & Hexp & Hn).
    rewrite Hperm in Hin. apply elem_get in Hin; [|apply flows_NoDup].
    pose proof (flows_flow H (Dashboard.mp_key p) invoices expenses) as Hflow.
    unfold flowAt in Hflow. rewrite Hin in Hflow.
    cbn [default from_option] in Hflow. unfold Datatypes.id in Hflow.
    rewrite Hinc, Hexp, Hflow. cbn [Dashboard.f_income Dashboard.f_expense].
    split; [|split; [|by rewrite Hn, Hinc, Hexp, Hflow]].
    + do 2 f_equal. apply filter_ext_Forall.
      eapply Forall_impl; [exact Hi|]. intros i Hsome. by apply monthKeyOr_Some.
    + do 2 f_equal. apply filter_ext_Forall.
      eapply Forall_impl; [exact He|]. intros e Hsome. by apply monthKeyOr_Some.
  - exact Hrun.
  - intros p Hlast. rewrite last_lookup in Hlast.
    apply Hrun in Hlast as ->. rewrite <- Hnet. do 2 f_equal.
    apply take_ge. destruct stats; cbn; lia.
  - intros Hc. rewrite Hstats, Hkeys. unfold sorted.
    apply StronglySorted_fmap_2.
    apply (sort_sorted (λ a b : string * Dashboard.Flow, localeCompare H a.1 b.1)).
    destruct Hc as [Hasym Htrans]. split.
    + intros x y. apply Hasym.
    + intros x y z. apply Htrans.
Qed.

Lemma buildMonthlyStats_cashflow_witness :
  Dashboard.mp_cashflow
    {| Dashboard.mp_key := "2024-02"; Dashboard.mp_income := Qc_of_Z 2000;
       Dashboard.mp_expense := Qc_of_Z 100; Dashboard.mp_net := Qc_of_Z 1900;
       Dashboard.mp_cashflow := Qc_of_Z 2600 |}
  = sumQ (i_total <$> scenarioA_invoices) - sumQ (e_totalAmount <$> scenarioA_expenses).
Proof.
  destruct (buildMonthlyStats_cashflow refHost scenarioA_invoices scenarioA_expenses
              [ {| Dashboard.mp_key := "2024-01"; Dashboard.mp_income := Qc_of_Z 1000;
                   Dashboard.mp_expense := Qc_of_Z 300; Dashboard.mp_net := Qc_of_Z 700;
                   Dashboard.mp_cashflow := Qc_of_Z 700 |};
                {| Dashboard.mp_key := "2024-02"; Dashboard.mp_income := Qc_of_Z 2000;
                   Dashboard.mp_expense := Qc_of_Z 100; Dashboard.mp_net := Qc_of_Z 1900;
                   Dashboard.mp_cashflow := Qc_of_Z 2600 |} ])
    as (_ & _ & _ & Hlast & _); [qc_eval | by apply Hlast].
Defined.

(** X25: the average net of the statistics, times the number of months, is
    all income minus all expenses: no invoice and no expense is lost or
    counted twice on the way from the records to the average. *)
Theorem averageNet_of_stats
    (H : Host) (invoices : list InvoiceLine) (expenses : list ExpenseLine)
    (stats : list Dashboard.MonthlyPoint) :
  Dashboard.buildMonthlyStats H invoices expenses = Some stats →
  Dashboard.averageNet stats * length_of stats
  = sumQ (i_total <$> invoices) - sumQ (e_totalAmount <$> expenses).
Proof.
  intros Hstats. rewrite <- (buildMonthlyStats_net_sum _ _ _ _ Hstats).
  unfold Dashboard.averageNet. case_decide as Hlen.
  - apply length_zero_iff_nil in Hlen. subst stats. rewrite fmap_nil.
    change (sumQ []) with (Q2Qc 0). ring.
  - rewrite sum_by_sumQ. field.
    apply not_eq_sym, Qclt_not_eq, length_of_pos. by intros ->.
Qed.

Lemma averageNet_of_stats_witness :
  Dashboard.averageNet
    [ {| Dashboard.mp_key := "2024-01"; Dashboard.mp_income := Qc_of_Z 1000;
         Dashboard.mp_expense := Qc_of_Z 300; Dashboard.mp_net := Qc_of_Z 700;
         Dashboard.mp_cashflow := Qc_of_Z 700 |};
      {| Dashboard.mp_key := "2024-02"; Dashboard.mp_income := Qc_of_Z 2000;
         Dashboard.mp_expense := Qc_of_Z 100; Dashboard.mp_net := Qc_of_Z 1900;
         Dashboard.mp_cashflow := Qc_of_Z 2600 |} ]
  * Qc_of_Z 2
  = sumQ (i_total <$> scenarioA_invoices) - sumQ (e_totalAmount <$> scenarioA_expenses).
Proof.
  apply (averageNet_of_stats refHost scenarioA_invoices scenarioA_expenses).
  qc_eval.
Defined.

(** *** The change between two months *)

Lemma Math_abs_lt x b : Dashboard.Math_abs x < b ↔ - b < x ∧ x < b.
Proof.
  unfold Dashboard.Math_abs. case_decide as Hx; revert Hx;
    unfold Qclt, Qcopp, Q2Qc; cbn [this]; rewrite ?Qred_correct;
    change (this (Q2Qc 0)) with 0%Q; intros Hx; split; try intros [? ?]; try split; lra.
Qed.

Lemma percentChange_defined current previous d :
  Dashboard.percentChange (Some current) (Some previous) = Some d →
  previous ≠ 0 ∧ d = (current - previous) / previous * Qc_of_Z 100.
Proof.
  unfold Dashboard.percentChange. case_decide as Habs; [done|]. intros [= <-].
  split; [|done]. intros ->. apply Habs. qc_eval.
Qed.

(** X26: the dashboard's [percentChange] of two numbers is [null] exactly
    when the previous value is within a thousandth of zero; otherwise it is
    the percentage d that takes the previous value to the current one:
    current = previous * (1 + d / 100). *)
Theorem percentChange_inverse (current previous : Qc) :
  (Dashboard.percentChange (Some current) (Some previous) = None
   ↔ - lit 0.001 < previous ∧ previous < lit 0.001)
  ∧ (∀ d, Dashboard.percentChange (Some current) (Some previous) = Some d →
       previous ≠ 0 ∧ current = previous * (1 + d / Qc_of_Z 100)).
Proof.
  split.
  - rewrite <- Math_abs_lt. unfold Dashboard.percentChange. by case_decide.
  - intros d [Hp ->]%percentChange_defined. split; [done|]. field.
    split; [done | apply hundred_nonzero].
Qed.

Lemma twoDecimals_100 : twoDecimals (Qc_of_Z 100).
Proof. unfold twoDecimals. qc_eval. Qed.

Lemma round_minus_100 : round (- Qc_of_Z 100) = - Qc_of_Z 100.
Proof. qc_eval. Qed.


(** *** The totals of the AI route *)

Lemma Math_max_0_id x : 0 ≤ x → Math_max x 0 = x.
Proof.
  intros Hx. unfold Math_max. case_decide as Hlt; [|done].
  apply Qcle_antisym; [done | by apply Qclt_le_weak].
Qed.

Lemma totals_invoices_fold acc (invoices : list AIContext.AIInvoiceSummary) :
  let t :=
    foldl
      (λ totals invoice,
         {| Route.t_facturado := Route.t_facturado totals + AIContext.ai_total invoice;
            Route.t_cobrado := Route.t_cobrado totals + AIContext.ai_paid invoice;
            Route.t_pendiente :=
              Route.t_pendiente totals + Math_max (AIContext.ai_balance invoice) 0;
            Route.t_vencido :=
              if decide (AIContext.ai_status invoice = Vencido) then
                Route.t_vencido totals + Math_max (AIContext.ai_balance invoice) 0
              else Route.t_vencido totals;
            Route.t_gastos := Route.t_gastos totals;
            Route.t_utilidad := Route.t_utilidad totals |})
      acc invoices in
  Route.t_facturado t = Route.t_facturado acc + sumQ (AIContext.ai_total <$> invoices)
  ∧ Route.t_cobrado t = Route.t_cobrado acc + sumQ (AIContext.ai_paid <$> invoices)
  ∧ Route.t_pendiente t
    = Route.t_pendiente acc
      + sumQ ((λ i, Math_max (AIContext.ai_balance i) 0) <$> invoices)
  ∧ Route.t_vencido t
    = Route.t_vencido acc
      + sumQ ((λ i, Math_max (AIContext.ai_balance i) 0)
                <$> filter (λ i, AIContext.ai_status i = Vencido) invoices)
  ∧ Route.t_gastos t = Route.t_gastos acc.
Proof.
  revert acc. induction invoices as [|i invoices IH]; intros acc; cbn [foldl].
  - cbn zeta. rewrite !fmap_nil. change (sumQ []) with (Q2Qc 0).
    by rewrite !Qcplus_0_r.
  - cbn zeta. destruct (IH
      {| Route.t_facturado := Route.t_facturado acc + AIContext.ai_total i;
         Route.t_cobrado := Route.t_cobrado acc + AIContext.ai_paid i;
         Route.t_pendiente :=
           Route.t_pendiente acc + Math_max (AIContext.ai_balance i) 0;
         Route.t_vencido :=
           if decide (AIContext.ai_status i = Vencido) then
             Route.t_vencido acc + Math_max (AIContext.ai_balance i) 0
           else Route.t_vencido acc;
         Route.t_gastos := Route.t_gastos acc;
         Route.t_utilidad := Route.t_utilidad acc |}) as (-> & -> & -> & -> & ->).
    cbn [Route.t_facturado Route.t_cobrado Route.t_pendiente Route.t_vencido
         Route.t_gastos].
    rewrite !fmap_cons, !sumQ_cons, filter_cons.
    destruct (decide (AIContext.ai_status i = Vencido)).
    + rewrite fmap_cons, sumQ_cons. repeat split; ring.
    + repeat split; ring.
Qed.

Lemma totals_expenses_fold acc (expenses : list AIContext.AIExpenseSummary) :
  let t :=
    foldl
      (λ totals expense,
         {| Route.t_facturado := Route.t_facturado totals;
            Route.t_cobrado := Route.t_cobrado totals;
            Route.t_pendiente := Route.t_pendiente totals;
            Route.t_vencido := Route.t_vencido totals;
            Route.t_gastos := Route.t_gastos totals + AIContext.ax_totalAmount expense;
            Route.t_utilidad := Route.t_utilidad totals |})
      acc expenses in
  Route.t_facturado t = Route.t_facturado acc
  ∧ Route.t_cobrado t = Route.t_cobrado acc
  ∧ Route.t_pendiente t = Route.t_pendiente acc
  ∧ Route.t_vencido t = Route.t_vencido acc
  ∧ Route.t_gastos t
    = Route.t_gastos acc + sumQ (AIContext.ax_totalAmount <$> expenses).
Proof.
  revert acc. induction expenses as [|e expenses IH]; intros acc; cbn [foldl].
  - cbn zeta. rewrite fmap_nil. change (sumQ []) with (Q2Qc 0).
    by rewrite Qcplus_0_r.
  - cbn zeta. destruct (IH
      {| Route.t_facturado := Route.t_facturado acc;
         Route.t_cobrado := Route.t_cobrado acc;
         Route.t_pendiente := Route.t_pendiente acc;
         Route.t_vencido := Route.t_vencido acc;
         Route.t_gastos := Route.t_gastos acc + AIContext.ax_totalAmount e;
         Route.t_utilidad := Route.t_utilidad acc |}) as (-> & -> & -> & -> & ->).
    cbn [Route.t_facturado Route.t_cobrado Route.t_pendiente Route.t_vencido
         Route.t_gastos].
    rewrite fmap_cons, sumQ_cons. repeat split; ring.
Qed.

Lemma filter_fmap_pre {A B} (f : A → B) (P : B → Prop) `{!∀ y, Decision (P y)}
    (xs : list A) :
  filter P (f <$> xs) = f <$> filter (λ x, P (f x)) xs.
Proof.
  induction xs as [|x xs IH]; [done|].
  rewrite fmap_cons, !filter_cons, IH. by destruct (decide (P (f x))).
Qed.

(** The totals in closed form. *)
Lemma totals_closed invoices expenses :
  let t := Route.totals invoices expenses in
  Route.t_facturado t = sumQ (AIContext.ai_total <$> invoices)
  ∧ Route.t_cobrado t = sumQ (AIContext.ai_paid <$> invoices)
  ∧ Route.t_pendiente t
    = sumQ ((λ i, Math_max (AIContext.ai_balance i) 0) <$> invoices)
  ∧ Route.t_vencido t
    = sumQ ((λ i, Math_max (AIContext.ai_balance i) 0)
              <$> filter (λ i, AIContext.ai_status i = Vencido) invoices)
  ∧ Route.t_gastos t = sumQ (AIContext.ax_totalAmount <$> expenses)
  ∧ Route.t_utilidad t
    = sumQ (AIContext.ai_paid <$> invoices)
      - sumQ (AIContext.ax_totalAmount <$> expenses).
Proof.
  intros t. unfold t, Route.totals. cbn zeta.
  cbn [Route.t_facturado Route.t_cobrado Route.t_pendiente Route.t_vencido
       Route.t_gastos Route.t_utilidad].
  match goal with
  | |- context [foldl ?f (foldl ?g ?z invoices) expenses] =>
      destruct (totals_expenses_fold (foldl g z invoices) expenses)
        as (He1 & He2 & He3 & He4 & He5);
      destruct (totals_invoices_fold z invoices) as (Hi1 & Hi2 & Hi3 & Hi4 & Hi5)
  end.
  cbn zeta in He1, He2, He3, He4, He5, Hi1, Hi2, Hi3, Hi4, Hi5.
  rewrite He1, He2, He3, He4, He5, Hi1, Hi2, Hi3, Hi4, Hi5.
  cbn [Route.t_facturado Route.t_cobrado Route.t_pendiente Route.t_vencido
       Route.t_gastos].
  by rewrite !Qcplus_0_l.
Qed.

(** X28: on invoices read by [mapInvoiceRow] and handed over by
    [mapInvoicesForAI], the totals of the AI route are those of
    [summarizeInvoices]: invoiced, collected, pending and overdue agree; the
    expenses are the sum of the expense amounts, and the profit is what was
    collected minus all expenses, paid or not. *)
Theorem totals_agree_with_summary
    (H : Host) (records : list InvoiceRecord) (expenses : list ExpenseRecord) :
  Forall (λ r, ∃ row, mapInvoiceRow H row = Some r) records →
  let t := Route.totals (AIContext.mapInvoicesForAI records)
             (AIContext.mapExpensesForAI expenses) in
  let s := summarizeInvoices records in
  Route.t_facturado t = s_facturado s
  ∧ Route.t_cobrado t = s_pagado s
  ∧ Route.t_pendiente t = s_pendiente s
  ∧ Route.t_vencido t = s_vencido s
  ∧ Route.t_gastos t = sumQ (ex_totalAmount <$> expenses)
  ∧ Route.t_utilidad t = sumQ (paid <$> records) - sumQ (ex_totalAmount <$> expenses).
Proof.
  intros Hmapped t s.
  assert (Forall (λ r, 0 ≤ balance r) records) as Hnn.
  { eapply Forall_impl; [exact Hmapped|]. intros r [row Hr].
    by eapply mapInvoiceRow_balance_nonneg. }
  destruct (summarizeInvoices_fold
              {| s_facturado := 0; s_pagado := 0; s_pendiente := 0; s_vencido := 0 |}
              records) as (Hf & Hp & Hb & Hv).
  fold (summarizeInvoices records) in Hf, Hp, Hb, Hv. fold s in Hf, Hp, Hb, Hv.
  cbn [s_facturado s_pagado s_pendiente s_vencido] in Hf, Hp, Hb, Hv.
  rewrite Qcplus_0_l in Hf, Hp, Hb, Hv.
  destruct (totals_closed (AIContext.mapInvoicesForAI records)
              (AIContext.mapExpensesForAI expenses))
    as (Tf & Tc & Tp & Tv & Tg & Tu).
  fold t in Tf, Tc, Tp, Tv, Tg, Tu.
  rewrite Tf, Tc, Tp, Tv, Tg, Tu, Hf, Hp, Hb, Hv.
  unfold AIContext.mapInvoicesForAI, AIContext.mapExpensesForAI.
  rewrite filter_fmap_pre, <- !list_fmap_compose.
  assert (∀ rs : list InvoiceRecord, Forall (λ r, 0 ≤ balance r) rs →
            (λ r, Math_max (balance r) 0) <$> rs = balance <$> rs) as Hmax.
  { intros rs Hrs. apply Forall_fmap_ext_1. eapply Forall_impl; [exact Hrs|].
    intros r Hr. by apply Math_max_0_id. }
  repeat split; try done.
  - by apply (f_equal sumQ), Hmax.
  - apply (f_equal sumQ), Hmax, Forall_forall.
    intros r [_ Hr]%list_elem_of_filter. by apply (proj1 (Forall_forall _ _) Hnn).
Qed.

Lemma totals_agree_with_summary_witness :
  Route.t_pendiente
    (Route.totals
       (AIContext.mapInvoicesForAI [sampleInvoiceRecord 50 "2024-02-10" 68 Vencido])
       (AIContext.mapExpensesForAI [mapExpenseRow (sampleExpenseRow pendiente)]))
  = s_pendiente (summarizeInvoices [sampleInvoiceRecord 50 "2024-02-10" 68 Vencido]).
Proof.
  destruct (totals_agree_with_summary refHost
              [sampleInvoiceRecord 50 "2024-02-10" 68 Vencido]
              [mapExpenseRow (sampleExpenseRow pendiente)]) as (_ & _ & Hp & _);
    [|exact Hp].
  apply Forall_cons. split; [|apply Forall_nil_2].
  exists (sampleInvoiceRow 50 "2024-02-10" (Some pagado)). qc_eval.
Defined.

(** X29: the cash balance from which the route computes the runway is the
    sum of what the invoices have been paid; the expenses, paid or not, do
    not enter it. *)
Theorem route_cash_is_collected
    (H : Host) (invoices : list AIContext.AIInvoiceSummary)
    (expenses : list AIContext.AIExpenseSummary) :
  saldoCajaActual (Route.projectionBaseline H invoices expenses)
  = sumQ (AIContext.ai_paid <$> invoices)
  ∧ ∀ expenses',
      saldoCajaActual (Route.projectionBaseline H invoices expenses')
      = saldoCajaActual (Route.projectionBaseline H invoices expenses).
Proof.
  assert (∀ es, saldoCajaActual (Route.projectionBaseline H invoices es)
                = sumQ (AIContext.ai_paid <$> invoices)) as Hcash.
  { intros es. unfold Route.projectionBaseline, calculateProjectionBaseline.
    cbn zeta. destruct (totals_closed invoices es) as (_ & Hc & _).
    cbn zeta in Hc. by case_decide. }
  split; [apply Hcash|]. intros es. by rewrite !Hcash.
Qed.

(** *** The projection of the AI route *)

Lemma cashflowFrom_lookup c pnl i e :
  Route.cashflowFrom c pnl !! i = Some e →
  ∃ p, pnl !! i = Some p
       ∧ Route.cf_mes e = Route.mes p
       ∧ Route.ingresos_percibidos e = Route.ventas_devengado p
       ∧ Route.egresos_totales e = Route.costos_variables p + Route.costos_fijos p
       ∧ Route.flujo_de_caja_neto e = Route.utilidad_operativa p
       ∧ Route.saldo_caja_final e
         = c + sumQ (Route.utilidad_operativa <$> take (S i) pnl).
Proof.
  revert c i. induction pnl as [|p pnl IH]; intros c i; cbn [Route.cashflowFrom].
  - by rewrite lookup_nil.
  - cbn zeta. destruct i as [|i].
    + intros [= <-]. exists p. rewrite firstn_cons, firstn_O, fmap_cons, fmap_nil, sumQ_cons.
      change (sumQ []) with (Q2Qc 0). cbn. repeat split; ring.
    + rewrite lookup_cons. intros He. apply IH in He as (p' & Hp' & ? & ? & ? & ? & Hs).
      exists p'. rewrite lookup_cons, firstn_cons, fmap_cons, sumQ_cons.
      repeat split; try done. rewrite Hs. ring.
Qed.

Lemma length_cashflowFrom c pnl : length (Route.cashflowFrom c pnl) = length pnl.
Proof.
  revert c. induction pnl as [|p pnl IH]; intros c; [done|].
  cbn [Route.cashflowFrom]. cbn zeta. cbn [length]. by rewrite IH.
Qed.

(** X30: the projection that the route builds from a history that is not
    empty has twelve months of profit and loss and twelve of cash flow; in
    every month the operating profit is the sales less the variable costs
    (sales times the variable-cost rate) and the fixed costs; the net cash
    flow of a month is its income less its outgoings; and the closing balance
    of a month is the cash balance of the baseline plus the operating profits
    up to that month. *)
Theorem route_projection
    (H : Host) (monthlyAggregates : list MonthlyAggregate)
    (projectionBaseline : ProjectionBaseline) :
  monthlyAggregates ≠ [] →
  let pnl := Route.pnlProjection H monthlyAggregates projectionBaseline in
  let cash := Route.cashflowProjection projectionBaseline pnl in
  length pnl = 12%nat
  ∧ length cash = 12%nat
  ∧ (∀ p, p ∈ pnl →
       Route.costos_fijos p = costosFijosReales projectionBaseline
       ∧ Route.costos_variables p
         = Route.ventas_devengado p * tasaCostoVariable projectionBaseline
       ∧ Route.utilidad_operativa p
         = Route.ventas_devengado p - Route.costos_variables p - Route.costos_fijos p)
  ∧ (∀ i e, cash !! i = Some e →
       Route.flujo_de_caja_neto e
       = Route.ingresos_percibidos e - Route.egresos_totales e
       ∧ Route.saldo_caja_final e
         = saldoCajaActual projectionBaseline
           + sumQ (Route.utilidad_operativa <$> take (S i) pnl)).
Proof.
  intros _ pnl cash.
  assert (length pnl = 12%nat) as Hlen.
  { unfold pnl, Route.pnlProjection. cbn zeta.
    unfold projectIncomeWithSeasonality. by rewrite !length_fmap, length_seq. }
  assert (∀ p, p ∈ pnl →
            Route.costos_fijos p = costosFijosReales projectionBaseline
            ∧ Route.costos_variables p
              = Route.ventas_devengado p * tasaCostoVariable projectionBaseline
            ∧ Route.utilidad_operativa p
              = Route.ventas_devengado p - Route.costos_variables p
                - Route.costos_fijos p) as Hpnl.
  { intros p Hp. unfold pnl, Route.pnlProjection in Hp. cbn zeta in Hp.
    apply list_elem_of_fmap in Hp as (proj & -> & _). by cbn. }
  split; [done|].
  split; [unfold cash, Route.cashflowProjection; by rewrite length_cashflowFrom|].
  split; [done|].
  intros i e He. apply cashflowFrom_lookup in He as (p & Hp & _ & Hin & Hout & Hnet & Hs).
  split; [|done].
  destruct (Hpnl p) as (_ & _ & Hu); [by eapply list_elem_of_lookup_2|].
  rewrite Hnet, Hin, Hout, Hu. ring.
Qed.

Lemma route_projection_witness :
  length (Route.pnlProjection refHost twoMonths baselineB) = 12%nat.
Proof.
  destruct (route_projection refHost twoMonths baselineB) as [Hlen _];
    [done | exact Hlen].
Defined.
